(** * SyncPushPull: push/pull directory synchronisation driven by inotify

    A shallow embedding of [syncit.py] and [monitorRemote.py].

    - Python [str] values are [string]s holding their UTF-8 bytes, Python
      [bytes] values are [string]s of raw bytes; the two are told apart by
      the constructors of [PyVal].
    - Times (the floats of [time.time()], [--pushDelay], ...) are exact
      rationals [Q].
    - The threads are modelled one at a time, as programs of a state and
      error monad over a [World]: a clock, the inotify queue, and the trace
      of the effects the program has performed (sleeps, sub-processes, log
      records, values put on the bridge's queue, lines printed). What a
      sub-process does is given by the oracles of an [Env].
    - The parts of the Python library the programs call ([posixpath],
      [re.match] for the bridge's pattern, strict UTF-8 decoding) are
      embedded after CPython's own definitions. *)

From Stdlib Require Import Ascii QArith Qminmax Lqa.
From Stdlib Require String OrderedTypeEx.
From stdpp Require Import gmap strings list.

(** ** Strings *)

Definition sep : ascii := "/"%char.

Definition startswith_sep (s : string) : bool :=
  match s with
  | String c _ => Ascii.eqb c sep
  | EmptyString => false
  end.

Fixpoint endswith_sep (s : string) : bool :=
  match s with
  | EmptyString => false
  | String c EmptyString => Ascii.eqb c sep
  | String _ s' => endswith_sep s'
  end.

(** [s.split("/")]: never empty, [""] for the empty string. *)
Fixpoint split_sep (s : string) : list string :=
  match s with
  | EmptyString => [""]
  | String c s' =>
      if Ascii.eqb c sep then "" :: split_sep s'
      else match split_sep s' with
           | w :: ws => String c w :: ws
           | [] => [String c ""]
           end
  end.

(** ["/".join(l)] *)
Definition join_sep (l : list string) : string := String.concat "/" l.

(** [s.rstrip("/")] and [s.lstrip("/")] *)
Fixpoint rstrip_sep (s : string) : string :=
  match s with
  | EmptyString => ""
  | String c s' =>
      match rstrip_sep s' with
      | EmptyString => if Ascii.eqb c sep then "" else String c ""
      | r => String c r
      end
  end.

Fixpoint lstrip_sep (s : string) : string :=
  match s with
  | String c s' => if Ascii.eqb c sep then lstrip_sep s' else s
  | EmptyString => ""
  end.

(** [s == "/" * len(s)] *)
Fixpoint all_sep (s : string) : bool :=
  match s with
  | EmptyString => true
  | String c s' => Ascii.eqb c sep && all_sep s'
  end.

(** [s[:s.rfind("/") + 1]] *)
Fixpoint upto_last_sep (s : string) : string :=
  match s with
  | EmptyString => ""
  | String c s' =>
      match upto_last_sep s' with
      | EmptyString => if Ascii.eqb c sep then String c "" else ""
      | r => String c r
      end
  end.

(** The exceptions the programs can meet. *)
Inductive Exn : Type :=
| ValueError (msg : string)
| IndexError
| TypeError (msg : string)
| UnicodeDecodeError
| OSError (msg : string).

(** ** posixpath *)

Module posixpath.

(** [os.path.dirname] *)
Definition dirname (p : string) : string :=
  let head := upto_last_sep p in
  if negb (String.eqb head "") && negb (all_sep head)
  then rstrip_sep head else head.

(** [os.path.join(a, b)] with one more component *)
Definition join (a b : string) : string :=
  if startswith_sep b then b
  else if String.eqb a "" || endswith_sep a then a +:+ b
  else a +:+ "/" +:+ b.

Definition isabs (p : string) : bool := startswith_sep p.

(** The loop of [normpath] over the components. [new_comps] is kept
    reversed, its last element first. *)
Fixpoint normpath_comps (initial_slashes : bool) (comps rev_new : list string)
  : list string :=
  match comps with
  | [] => rev rev_new
  | comp :: rest =>
      if String.eqb comp "" || String.eqb comp "." then
        normpath_comps initial_slashes rest rev_new
      else if negb (String.eqb comp "..")
              || (negb initial_slashes && bool_decide (rev_new = []))
              || match rev_new with
                 | last :: _ => String.eqb last ".."
                 | [] => false
                 end
      then normpath_comps initial_slashes rest (comp :: rev_new)
      else match rev_new with
           | _ :: pop => normpath_comps initial_slashes rest pop
           | [] => normpath_comps initial_slashes rest rev_new
           end
  end.

(** The number of slashes [normpath] keeps in front: 0, 1 or 2. *)
Definition initial_slashes (path : string) : nat :=
  match path with
  | String a (String b (String c _)) =>
      if Ascii.eqb a sep then
        if Ascii.eqb b sep && negb (Ascii.eqb c sep) then 2 else 1
      else 0
  | String a (String b EmptyString) =>
      if Ascii.eqb a sep then if Ascii.eqb b sep then 2 else 1 else 0
  | String a EmptyString => if Ascii.eqb a sep then 1 else 0
  | EmptyString => 0
  end%nat.

Definition normpath (path : string) : string :=
  if String.eqb path "" then "."
  else
    let n := initial_slashes path in
    let comps := normpath_comps (negb (Nat.eqb n 0)) (split_sep path) [] in
    let p := join_sep comps in
    let p := match n with
             | O => p
             | S O => "/" +:+ p
             | _ => "//" +:+ p
             end in
    if String.eqb p "" then "." else p.

(** [os.path.abspath], in a process whose working directory is [cwd]. *)
Definition abspath (cwd path : string) : string :=
  normpath (if isabs path then path else join cwd path).

(** [len(commonprefix([l1, l2]))] on two lists of components *)
Fixpoint commonprefix_len (l1 l2 : list string) : nat :=
  match l1, l2 with
  | a :: l1', b :: l2' =>
      if String.eqb a b then S (commonprefix_len l1' l2') else O
  | _, _ => O
  end.

(** [os.path.relpath(path, start=start)] *)
Definition relpath (cwd path start : string) : Exn + string :=
  if String.eqb path "" then inl (ValueError "no path specified")
  else
    let start_tail := lstrip_sep (abspath cwd start) in
    let path_tail := lstrip_sep (abspath cwd path) in
    let start_list :=
      if String.eqb start_tail "" then [] else split_sep start_tail in
    let path_list :=
      if String.eqb path_tail "" then [] else split_sep path_tail in
    let i := commonprefix_len start_list path_list in
    let rel_list :=
      replicate (length start_list - i) ".." ++ drop i path_list in
    match rel_list with
    | [] => inr "."
    | _ => inr (join_sep rel_list)
    end.

(** Python's [<] on lists of [str]: the first differing components
    decide, a proper prefix is smaller. *)
Fixpoint list_lt (l1 l2 : list string) : bool :=
  match l1, l2 with
  | a :: l1', b :: l2' =>
      if String.eqb a b then list_lt l1' l2' else String.ltb a b
  | [], _ :: _ => true
  | _, [] => false
  end.

(** [min(l)] and [max(l)], started at the first element [cur]: the
    first smallest (largest) element wins. *)
Fixpoint min_from (cur : list string) (l : list (list string)) : list string :=
  match l with
  | [] => cur
  | x :: l' => min_from (if list_lt x cur then x else cur) l'
  end.

Fixpoint max_from (cur : list string) (l : list (list string)) : list string :=
  match l with
  | [] => cur
  | x :: l' => max_from (if list_lt cur x then x else cur) l'
  end.

(** [for i, c in enumerate(s1): if c != s2[i]: common = s1[:i]; break] *)
Fixpoint common_loop (s1 s2 : list string) : Exn + list string :=
  match s1 with
  | [] => inr []
  | c :: s1' =>
      match s2 with
      | [] => inl IndexError
      | d :: s2' =>
          if String.eqb c d then
            match common_loop s1' s2' with
            | inr common => inr (c :: common)
            | inl e => inl e
            end
          else inr []
      end
  end.

(** [[c for c in s if c and c != curdir]] *)
Definition components (path : string) : list string :=
  List.filter (fun c => negb (String.eqb c "") && negb (String.eqb c "."))
              (split_sep path).

(** [os.path.commonpath(paths)] *)
Definition commonpath (paths : list string) : Exn + string :=
  match paths with
  | [] => inl (ValueError "commonpath() arg is an empty sequence")
  | p0 :: rest =>
      if forallb (fun p => Bool.eqb (isabs p) (isabs p0)) rest then
        let split_paths := map components paths in
        match split_paths with
        | [] => inl IndexError
        | s0 :: ss =>
            let s1 := min_from s0 ss in
            let s2 := max_from s0 ss in
            match common_loop s1 s2 with
            | inr common =>
                inr ((if isabs p0 then "/" else "") +:+ join_sep common)
            | inl e => inl e
            end
        end
      else inl (ValueError "Can't mix absolute and relative paths")
  end.

End posixpath.

(** ** Values, decoding and the bridge's pattern *)

(** The Python values that travel through queues and log records. *)
#[local] Set Warnings "-register-all,-clear-no-such-hyp".
Inductive PyVal : Type :=
| VNone
| VStr (s : string)
| VBytes (b : string)
| VFloat (x : Q)
| VInt (n : Z)
| VTuple (l : list PyVal).

Definition nl : string := String (ascii_of_N 10) "".

Definition byte_in (lo hi : N) (c : ascii) : bool :=
  (lo <=? N_of_ascii c)%N && (N_of_ascii c <=? hi)%N.

(** Strict UTF-8, as CPython's decoder checks it: no overlong forms, no
    surrogates, nothing above U+10FFFF. *)
Fixpoint utf8_valid (s : string) : bool :=
  match s with
  | EmptyString => true
  | String a s1 =>
      if byte_in 0 0x7F a then utf8_valid s1 else
      match s1 with
      | String b s2 =>
          if byte_in 0xC2 0xDF a then byte_in 0x80 0xBF b && utf8_valid s2 else
          match s2 with
          | String c s3 =>
              if (byte_in 0xE0 0xE0 a && byte_in 0xA0 0xBF b
                  || byte_in 0xE1 0xEC a && byte_in 0x80 0xBF b
                  || byte_in 0xED 0xED a && byte_in 0x80 0x9F b
                  || byte_in 0xEE 0xEF a && byte_in 0x80 0xBF b)
                 && byte_in 0x80 0xBF c
              then utf8_valid s3 else
              match s3 with
              | String d s4 =>
                  (byte_in 0xF0 0xF0 a && byte_in 0x90 0xBF b
                   || byte_in 0xF1 0xF3 a && byte_in 0x80 0xBF b
                   || byte_in 0xF4 0xF4 a && byte_in 0x80 0x8F b)
                  && byte_in 0x80 0xBF c && byte_in 0x80 0xBF d
                  && utf8_valid s4
              | EmptyString => false
              end
          | EmptyString => false
          end
      | EmptyString => false
      end
  end.

(** [str(v, "utf-8")]: only bytes can be decoded; a [str] is refused. *)
Definition str_decode (v : PyVal) : Exn + string :=
  match v with
  | VBytes b => if utf8_valid b then inr b else inl UnicodeDecodeError
  | VStr _ => inl (TypeError "decoding str is not supported")
  | _ => inl (TypeError "decoding to str: need a bytes-like object")
  end.

(** [isinstance(v, str)] and Python's [~] on the resulting bool, which is
    the integer [-1 - b]: [~True = -2], [~False = -1]. *)
Definition isinstance_str (v : PyVal) : bool :=
  match v with VStr _ => true | _ => false end.

Definition invert_bool (b : bool) : Z := (-1 - (if b then 1 else 0))%Z.

Definition truthy (n : Z) : bool := negb (n =? 0)%Z.

Module re.

(** The fragment of [re] the bridge's pattern is written in, for byte
    patterns without flags. *)
Inductive Class : Type :=
| Lit (c : ascii)   (* a literal byte *)
| Dot               (* [.]: any byte but a newline *)
| Space.            (* [\s]: space, \t, \n, \r, \f, \v *)

Inductive Item : Type :=
| Bol                         (* [^] *)
| Eol                         (* [$] *)
| One (cl : Class)
| Plus (cl : Class)           (* [cl+], greedy *)
| GroupPlus (cl : Class).     (* [(cl+)], capturing *)

Definition class_matches (cl : Class) (c : ascii) : bool :=
  match cl with
  | Lit a => Ascii.eqb a c
  | Dot => negb (N_of_ascii c =? 10)%N
  | Space =>
      let n := N_of_ascii c in
      (n =? 32)%N || (9 <=? n)%N && (n <=? 13)%N
  end.

(** The length of the longest run of [cl] at the head of [s]. *)
Fixpoint run_length (cl : Class) (s : string) : nat :=
  match s with
  | String c s' => if class_matches cl c then S (run_length cl s') else O
  | EmptyString => O
  end.

Fixpoint take (n : nat) (s : string) : string :=
  match n, s with
  | S n', String c s' => String c (take n' s')
  | _, _ => ""
  end.

Fixpoint drop (n : nat) (s : string) : string :=
  match n, s with
  | S n', String _ s' => drop n' s'
  | _, _ => s
  end.

(** Backtracking of a greedy repetition: the longest run first, then
    one byte less, down to one byte. *)
Fixpoint longest_first {A} (n : nat) (k : nat -> option A) : option A :=
  match n with
  | O => None
  | S n' => match k n with
            | Some r => Some r
            | None => longest_first n' k
            end
  end.

(** [$] without [re.MULTILINE]: at the end, or before a final newline. *)
Definition at_eol (s : string) : bool :=
  String.eqb s "" || String.eqb s nl.

(** Matching at the head of [s]; [start] tells whether no byte has been
    consumed yet, [group] is the capture of group 1 so far. The result is
    the capture of group 1 of the match found first. *)
Fixpoint matches (pat : list Item) (start : bool) (s : string)
         (group : option string) : option (option string) :=
  match pat with
  | [] => Some group
  | Bol :: pat' => if start then matches pat' start s group else None
  | Eol :: pat' => if at_eol s then matches pat' start s group else None
  | One cl :: pat' =>
      match s with
      | String c s' =>
          if class_matches cl c then matches pat' false s' group else None
      | EmptyString => None
      end
  | Plus cl :: pat' =>
      longest_first (run_length cl s)
                    (fun n => matches pat' false (drop n s) group)
  | GroupPlus cl :: pat' =>
      longest_first (run_length cl s)
                    (fun n => matches pat' false (drop n s) (Some (take n s)))
  end.

(** [re.match(pat, s)], reduced to [matches[1]]. *)
Definition match_group1 (pat : list Item) (s : string) : option string :=
  match matches pat true s None with
  | Some (Some g) => Some g
  | _ => None
  end.

End re.

(** [b"^:(.+)\s+$"] *)
Definition line_pattern : list re.Item :=
  [re.Bol; re.One (re.Lit ":"); re.GroupPlus re.Dot; re.Plus re.Space; re.Eol].

(** ** The world and the monad of the threads *)

Inductive Level : Type := INFO | WARNING | ERROR.

(** What a thread does to the outside, in the order it does it. *)
Inductive Effect : Type :=
| ESleep (dt : Q)                                  (* time.sleep *)
| ERun (cmd : list string)                         (* subprocess.run *)
| EPopen (cmd : list string)                       (* subprocess.Popen *)
| ELog (lvl : Level) (msg : string) (args : list PyVal)
| EPut (v : PyVal)                                 (* put on the bridge's queue *)
| EStdout (text : string).                         (* bytes written to stdout *)

(** An inotify event [(t0, fn)]. *)
Definition Event : Type := Q * string.

(** [inotify] is the queue of the INotify thread with the events still to
    come: an event is in the queue from its time stamp on. *)
Record World : Type := mkWorld {
  clock : Q;
  inotify : list Event;
  spawned : nat;            (* sub-processes started so far *)
  trace : list Effect
}.

Record CompletedProcess : Type := mkCompleted {
  returncode : Z;
  stdout : string           (* bytes, stderr included *)
}.

(** The collaborators that are not code of the programs. *)
Record Env : Type := mkEnv {
  isdir : string -> bool;                                   (* os.path.isdir *)
  expanduser : string -> string;                            (* os.path.expanduser *)
  getcwd : string;
  float_str : Q -> string;                                  (* str(float) *)
  run_outcome : nat -> list string -> Exn + CompletedProcess;
    (* what the n-th sub-process does when run to its end *)
  popen_outcome : nat -> list string -> Exn + list string
    (* the lines the n-th sub-process writes before its output closes *)
}.

(** The command line of [syncit.py]. *)
Record Args : Type := mkArgs {
  pushDelay : Q;
  pullDelay : Q;
  monitorRemote : string;
  retries : Z;
  retrySleep : Z;
  ssh : string;
  rsync : string;
  cache : string
}.

Inductive Outcome (A : Type) : Type :=
| Done (a : A)
| Raised (e : Exn)
| Blocked.                   (* waits for ever on an empty queue *)
Arguments Done {A} a.
Arguments Raised {A} e.
Arguments Blocked {A}.

Definition M (A : Type) : Type := World -> Outcome A * World.

Definition ret {A} (a : A) : M A := fun w => (Done a, w).

Definition bind {A B} (m : M A) (k : A -> M B) : M B :=
  fun w =>
    match m w with
    | (Done a, w') => k a w'
    | (Raised e, w') => (Raised e, w')
    | (Blocked, w') => (Blocked, w')
    end.

Notation "x <- m ;; k" := (bind m (fun x => k))
  (at level 100, m at next level, right associativity).
Notation "m ;;; k" := (bind m (fun _ => k))
  (at level 100, right associativity).

Definition raise {A} (e : Exn) : M A := fun w => (Raised e, w).

Definition lift {A} (r : Exn + A) : M A :=
  match r with
  | inr a => ret a
  | inl e => raise e
  end.

(** [try: body / except: handler], the bare [except] that catches all. *)
Definition try_except {A} (body : M A) (handler : Exn -> M A) : M A :=
  fun w =>
    match body w with
    | (Raised e, w') => handler e w'
    | r => r
    end.

Definition emit (e : Effect) : M unit :=
  fun w => (Done tt, mkWorld (clock w) (inotify w) (spawned w) (trace w ++ [e])).

Definition logging (lvl : Level) (msg : string) (args : list PyVal) : M unit :=
  emit (ELog lvl msg args).

(** [time.time()] *)
Definition time_time : M Q := fun w => (Done (clock w), w).

(** [time.sleep(dt)]: a negative length is a [ValueError]. *)
Definition time_sleep (dt : Q) : M unit :=
  fun w =>
    if Qle_bool 0 dt then
      (Done tt, mkWorld (clock w + dt) (inotify w) (spawned w)
                        (trace w ++ [ESleep dt]))
    else (Raised (ValueError "sleep length must be non-negative"), w).

(** [q.get()] on the inotify queue: waits until the next event is there. *)
Definition q_get : M Event :=
  fun w =>
    match inotify w with
    | ev :: rest =>
        (Done ev, mkWorld (Qmax (clock w) (fst ev)) rest (spawned w) (trace w))
    | [] => (Blocked, w)
    end.

(** [q.empty()] *)
Definition q_empty : M bool :=
  fun w =>
    (Done match inotify w with
          | ev :: _ => negb (Qle_bool (fst ev) (clock w))
          | [] => true
          end, w).

(** Python's [max(a, b)]: [b] only when it is greater than [a]. *)
Definition py_max (a b : Q) : Q := if Qle_bool b a then a else b.

Definition join_space (l : list string) : string := String.concat " " l.

Section Programs.

Variable env : Env.
Variable args : Args.

Definition abspath (p : string) : string := posixpath.abspath (getcwd env) p.

(** [subprocess.run(cmd, stdout=PIPE, stderr=STDOUT)] *)
Definition subprocess_run (cmd : list string) : M CompletedProcess :=
  fun w =>
    let w' := mkWorld (clock w) (inotify w) (S (spawned w))
                      (trace w ++ [ERun cmd]) in
    match run_outcome env (spawned w) cmd with
    | inr sp => (Done sp, w')
    | inl e => (Raised e, w')
    end.

(** [fn if os.path.isdir(fn) else os.path.dirname(fn)] *)
Definition dir_of (fn : string) : string :=
  if isdir env fn then fn else posixpath.dirname fn.

(** [while not q.empty(): (t0, fn) = q.get(); sources.add(dir_of fn)],
    by recursion on the queue. *)
Fixpoint drain_events (now : Q) (q : list Event) (sources : gset string)
  : list Event * gset string :=
  match q with
  | ev :: q' =>
      if Qle_bool (fst ev) now
      then drain_events now q' (sources ∪ {[dir_of (snd ev)]})
      else (q, sources)
  | [] => ([], sources)
  end.

Definition drain (sources : gset string) : M (gset string) :=
  fun w =>
    let (q, sources') := drain_events (clock w) (inotify w) sources in
    (Done sources', mkWorld (clock w) q (spawned w) (trace w)).

(** The body shared by [PushTo.rsyncTo] and [PullFrom.rsyncFrom], which
    differ in the [--temp-dir] argument only. *)
Definition rsync_cmd (temp_dir src tgt : string) : list string :=
  [rsync args; "--verbose"; "--archive"; "--temp-dir"; temp_dir;
   "--delete-delay"; posixpath.join src ""; tgt].

(** [sp.stdout] after lines 43-47: decoded when it can be. *)
Definition captured (sp : CompletedProcess) : PyVal :=
  if negb (String.eqb (stdout sp) "") then
    match str_decode (VBytes (stdout sp)) with
    | inr s => VStr s
    | inl _ => VBytes (stdout sp)
    end
  else VBytes (stdout sp).

Definition rsync_with (temp_dir src tgt : string) : M bool :=
  let cmd := rsync_cmd temp_dir src tgt in
  sp <- subprocess_run cmd ;;
  let out := captured sp in
  (if truthy (returncode sp) then
     logging WARNING ("Failed executing %s" +:+ nl +:+ "%s")
             [VStr (join_space cmd); out]
   else if negb (String.eqb (stdout sp) "") then
     logging INFO ("Executed: %s" +:+ nl +:+ "%s") [VStr (join_space cmd); out]
   else
     logging INFO "Executed: %s" [VStr (join_space cmd)]) ;;;
  ret (returncode sp =? 0)%Z.

(** *** syncit.py: PushTo *)

Record PushTo : Type := mkPushTo {
  push_dirRoot : string;
  push_targets : list string
}.

(** [PushTo.__init__] *)
Definition PushTo_init (dirname : string) (targets : list string) : PushTo :=
  mkPushTo (abspath (expanduser env dirname)) targets.

Definition rsyncTo (src tgt : string) : M bool :=
  rsync_with (cache args) src tgt.

(** [for tgt in targets: if not self.rsyncTo(src, dest(tgt)): qClearSources = False] *)
Fixpoint sync_targets (src : string) (dest : string -> string)
         (targets : list string) (qClearSources : bool) : M bool :=
  match targets with
  | [] => ret qClearSources
  | tgt :: rest =>
      ok <- rsyncTo src (dest tgt) ;;
      sync_targets src dest rest (if ok then qClearSources else false)
  end.

(** [if relpath != ".": tgt = os.path.join(tgt, relpath)] *)
Definition push_dest (relpath tgt : string) : string :=
  if negb (String.eqb relpath ".") then posixpath.join tgt relpath else tgt.

Section PushTo_runIt.

Variable self : PushTo.

Let dirRoot := push_dirRoot self.
Let targets := push_targets self.
Let sleepTime := pushDelay args.

(** Lines 62-79: the initial sync of the whole tree. *)
Definition push_initial : M (gset string) :=
  logging INFO "Starting %s with delay %s"
          [VTuple (map VStr targets); VFloat sleepTime] ;;;
  let sources : gset string := ∅ ∪ {[dirRoot]} in
  let src := dirRoot in
  qClearSources <- sync_targets src (fun tgt => tgt) targets true ;;
  ret (if qClearSources then ∅ else sources).

(** Lines 83-92: wait for an event, sleep, take what has come. *)
Definition push_batch (sources : gset string) : M (gset string) :=
  ev <- q_get ;;
  let (t0, fn) := ev in
  let sources := sources ∪ {[dir_of fn]} in
  now <- time_time ;;
  let dt := py_max (t0 - now + sleepTime) (1 # 10) in
  logging INFO "Sleeping for %s seconds due to %s" [VFloat dt; VStr fn] ;;;
  time_sleep dt ;;;
  drain sources.

(** Lines 94-104: one transfer per target, below the common path. *)
Definition push_fanout (sources : gset string) : M (gset string) :=
  src <- lift (posixpath.commonpath (elements sources)) ;;
  relpath <- lift (posixpath.relpath (getcwd env) src dirRoot) ;;
  qClearSources <- sync_targets src (push_dest relpath) targets true ;;
  ret (if qClearSources then ∅ else sources).

(** One turn of [while True]. *)
Definition push_cycle (sources : gset string) : M (gset string) :=
  sources <- push_batch sources ;;
  push_fanout sources.

Fixpoint push_loop (turns : nat) (sources : gset string) : M (gset string) :=
  match turns with
  | O => ret sources
  | S n => sources <- push_cycle sources ;; push_loop n sources
  end.

(** [PushTo.runIt], stopped after [turns] turns of its loop. *)
Definition PushTo_runIt (turns : nat) : M (gset string) :=
  sources <- push_initial ;;
  push_loop turns sources.

End PushTo_runIt.

(** *** syncit.py: MonitorRemote, the bridge *)

Definition popen (cmd : list string) : M (list string) :=
  fun w =>
    let w' := mkWorld (clock w) (inotify w) (S (spawned w))
                      (trace w ++ [EPopen cmd]) in
    match popen_outcome env (spawned w) cmd with
    | inr lines => (Done lines, w')
    | inl e => (Raised e, w')
    end.

(** The sentinel [(time.time(), None)]. *)
Definition sentinel (t : Q) : PyVal := VTuple [VFloat t; VNone].

(** Lines 136-149: [readline] until the output closes. *)
Fixpoint read_lines (lines : list string) : M unit :=
  match lines with
  | [] => ret tt
  | line :: rest =>
      if String.eqb line "" then ret tt
      else
        match re.match_group1 line_pattern line with
        | None =>
            logging INFO "unmatched line %s" [VBytes line] ;;;
            read_lines rest
        | Some g =>
            let fn := match str_decode (VBytes g) with
                      | inr s => VStr s
                      | inl _ => VBytes g
                      end in
            logging INFO "Sending %s" [fn] ;;;
            emit (EPut fn) ;;;
            read_lines rest
        end
  end.

(** Lines 131-153: [for cnt in range(args.retries)], [left] turns left. *)
Fixpoint bridge_loop (cmd : list string) (cnt : Z) (left : nat) : M unit :=
  match left with
  | O => ret tt
  | S left' =>
      lines <- popen cmd ;;
      read_lines lines ;;;
      logging INFO "Retry %s/%s sleeping for %s"
              [VInt cnt; VInt (retries args); VInt (retrySleep args)] ;;;
      time_sleep (inject_Z (retrySleep args)) ;;;
      now <- time_time ;;
      emit (EPut (sentinel now)) ;;;
      bridge_loop cmd (cnt + 1)%Z left'
  end.

Definition bridge_cmd (hostname directory : string) : list string :=
  [ssh args; hostname; monitorRemote args; "--verbose"; "--logfile";
   abspath (expanduser env "~/logs/monitorRemote.log");
   directory; float_str env (pullDelay args)].

Definition MonitorRemote_runIt (hostname directory : string) : M unit :=
  logging INFO "Starting host %s directory %s" [VStr hostname; VStr directory] ;;;
  bridge_loop (bridge_cmd hostname directory) 0 (Z.to_nat (retries args)) ;;;
  logging INFO "Exiting" [].

(** *** syncit.py: PullFrom *)

Definition rsyncFrom (src tgt : string) : M bool :=
  rsync_with (abspath (expanduser env (cache args))) src tgt.

(** [src.split(":", 1)] *)
Fixpoint split_colon (s : string) : option (string * string) :=
  match s with
  | EmptyString => None
  | String c s' =>
      if Ascii.eqb c ":" then Some ("", s')
      else match split_colon s' with
           | Some (h, d) => Some (String c h, d)
           | None => None
           end
  end.

Section PullFrom_runIt.

Variables hostname directory tgt : string.

(** Lines 211-218, with [path] as it is after line 210. *)
Definition pull_transfer (path : PyVal) : M unit :=
  match path with
  | VStr p =>
      let (srcPath, tgtPath) :=
        if String.eqb p "." then (directory, tgt)
        else (posixpath.join directory p, posixpath.join tgt p) in
      let srcPath := hostname +:+ ":" +:+ srcPath in
      rsyncFrom srcPath tgtPath ;;; ret tt
  | _ => raise (TypeError "expected str, bytes or os.PathLike object")
  end.

(** Line 220; [path] is the value the variable holds when the fault
    arises. *)
Definition pull_except (path : PyVal) (_ : Exn) : M unit :=
  logging ERROR "Unable to convert %s to str" [path].

(** Lines 208-221: what is done with one value taken from the queue. *)
Definition pull_step (path : PyVal) : M unit :=
  if truthy (invert_bool (isinstance_str path)) then
    match str_decode path with
    | inr s => try_except (pull_transfer (VStr s)) (pull_except (VStr s))
    | inl e => pull_except path e
    end
  else try_except (pull_transfer path) (pull_except path).

(** The loop, fed with the values the bridge has put on the queue. *)
Fixpoint pull_loop (notifications : list PyVal) : M unit :=
  match notifications with
  | [] => ret tt
  | path :: rest => pull_step path ;;; pull_loop rest
  end.

End PullFrom_runIt.

(** [PullFrom.runIt] for [PullFrom(dirname, src, args)]. *)
Definition PullFrom_runIt (dirname src : string) (notifications : list PyVal)
  : M unit :=
  let tgt := abspath (expanduser env dirname) in
  match split_colon src with
  | None => raise (ValueError "not enough values to unpack")
  | Some (hostname, directory) =>
      logging INFO "Starting tgt %s src %s with delay %s"
              [VStr tgt; VStr src; VFloat (pullDelay args)] ;;;
      rsyncFrom src tgt ;;;
      pull_loop hostname directory tgt notifications
  end.

(** *** monitorRemote.py, the watcher on the remote host *)

(** [print(s)] *)
Definition print (s : string) : M unit := emit (EStdout (s +:+ nl)).

(** The line of the wire protocol for a settled batch. *)
Definition watcher_line (src : string) : string := "src:" +:+ src +:+ nl.

(** Lines 34-47, one turn of the watch loop. *)
Definition watch_batch (delay : Q) : M (gset string) :=
  ev <- q_get ;;
  let (t0, fn) := ev in
  let sources : gset string := ∅ ∪ {[dir_of fn]} in
  now <- time_time ;;
  let dt := py_max (1 # 10) (t0 - now + delay) in
  logging INFO "Modified %s sleeping for %s" [VStr fn; VFloat dt] ;;;
  time_sleep dt ;;;
  drain sources.

Definition watch_cycle (delay : Q) : M unit :=
  sources <- watch_batch delay ;;
  src <- lift (posixpath.commonpath (elements sources)) ;;
  logging INFO "Sending %s" [VStr src] ;;;
  print ("src:" +:+ src).

Fixpoint watch_loop (delay : Q) (turns : nat) : M unit :=
  match turns with
  | O => ret tt
  | S n => watch_cycle delay ;;; watch_loop delay n
  end.

(** Lines 24-49 *)
Definition monitorRemote_main (delay : Q) (turns : nat) : M unit :=
  try_except (watch_loop delay turns)
             (fun _ => logging ERROR "Unexpected exception" []).

End Programs.

(** * The vocabulary of the properties *)

(** The sub-process commands a trace holds, oldest first. *)
Definition runs (tr : list Effect) : list (list string) :=
  omap (fun e => match e with ERun cmd => Some cmd | _ => None end) tr.

(** What matters of a trace for the reconnection protocol. *)
Inductive BackoffStep : Type :=
| Connect                 (* the remote watcher is launched *)
| Backoff (dt : Q)        (* a sleep *)
| Sentinel.               (* (timestamp, None) is put on the queue *)

Definition backoff_step (e : Effect) : option BackoffStep :=
  match e with
  | EPopen _ => Some Connect
  | ESleep dt => Some (Backoff dt)
  | EPut (VTuple [VFloat _; VNone]) => Some Sentinel
  | _ => None
  end.

Definition backoff_view (tr : list Effect) : list BackoffStep :=
  omap backoff_step tr.

Section Contracts.

Variable env : Env.
Variable args : Args.


(** What the claim says of a batcher [batch] with delay [delay] that
    starts from the set [sources] in the world [w]: with no event at all
    it waits; otherwise it sleeps once, for [max(0.1, t0 - now + delay)],
    and then takes every event that is in the queue, each as the
    directory it stands for, without letting the clock move again. *)
Definition debounce_contract (batch : M (gset string)) (delay : Q)
           (sources : gset string) (w : World) : Prop :=
  match inotify w with
  | [] => batch w = (Blocked, w)
  | (t0, fn) :: rest =>
      let now := Qmax (clock w) t0 in
      exists dt taken left D msg largs,
        batch w = (Done D,
                   mkWorld (now + dt)%Q left (spawned w)
                           (trace w ++ [ELog INFO msg largs; ESleep dt]))
        /\ (dt == Qmax (1 # 10) (t0 - now + delay))%Q
        /\ (1 # 10 <= dt)%Q
        /\ (t0 + delay <= now + dt)%Q
        /\ rest = taken ++ left
        /\ Forall (fun ev => (fst ev <= now + dt)%Q) taken
        /\ match left with
           | ev :: _ => ~ (fst ev <= now + dt)%Q
           | [] => True
           end
        /\ D = sources ∪ {[dir_of env fn]}
                 ∪ list_to_set (map (fun ev => dir_of env (snd ev)) taken)
  end.


(** Whether the [n]-th sub-process, run as [cmd], ends with exit status
    zero, which is when the executor returns true. *)
Definition transfer_ok (n : nat) (cmd : list string) : bool :=
  match run_outcome env n cmd with
  | inr sp => (returncode sp =? 0)%Z
  | inl _ => false
  end.

(** Whether the transfers [cmds], run one after the other from the
    [n]-th sub-process on, all end with exit status zero. *)
Fixpoint transfers_ok (n : nat) (cmds : list (list string)) : bool :=
  match cmds with
  | [] => true
  | cmd :: rest => transfer_ok n cmd && transfers_ok (S n) rest
  end.

(** The transfers of one push cycle: from [src] to [dest tgt] for every
    target, in the order of the configuration. *)
Definition push_cmds (src : string) (dest : string -> string)
           (targets : list string) : list (list string) :=
  map (fun tgt => rsync_cmd args (cache args) src (dest tgt)) targets.

End Contracts.

(** Whether a slash occurs in [s]. *)
Fixpoint has_sep (s : string) : bool :=
  match s with
  | String c s' => Ascii.eqb c sep || has_sep s'
  | EmptyString => false
  end.

(** A component as [commonpath] keeps them: not empty, not ["."], and
    without a slash. *)
Definition good_component (c : string) : Prop :=
  c <> "" /\ c <> "." /\ has_sep c = false.


(** ** A ship that pushes [/root] to two shore directories

    The second sub-process fails with exit status 23, all others succeed;
    every session of the remote watcher closes at once. *)

Definition ship_env : Env :=
  mkEnv (fun p => String.eqb p "/root/sub") (fun p => p) "/"
        (fun _ => "20.0")
        (fun n _ => inr (if Nat.eqb n 1
                         then mkCompleted 23 "rsync: connection unexpectedly closed"
                         else mkCompleted 0 ""))
        (fun _ _ => inr []).

Definition ship_args : Args :=
  mkArgs 20%Q 20%Q "/opt/monitorRemote.py" 2 600 "/usr/bin/ssh" "/usr/bin/rsync"
         "/var/cache".

Definition ship_push : PushTo := mkPushTo "/root" ["dest"; "shore:/d2"].

Definition ship_world : World :=
  mkWorld 0%Q [(5%Q, "/root/sub/a.txt"); (7%Q, "/root/sub"); (100%Q, "/root/x")] 0 [].

(** ** Further vocabulary: lines, queues, normal paths *)

(** Whether a newline byte occurs in [s]. *)
Fixpoint has_newline (s : string) : bool :=
  match s with
  | String c s' => (N_of_ascii c =? 10)%N || has_newline s'
  | EmptyString => false
  end.

(** Whether [s] is made of white space, as [\s] has it, only. *)
Fixpoint all_space (s : string) : bool :=
  match s with
  | String c s' => re.class_matches re.Space c && all_space s'
  | EmptyString => true
  end.

(** The values a trace puts on the bridge's queue, oldest first. *)
Definition puts (tr : list Effect) : list PyVal :=
  omap (fun e => match e with EPut v => Some v | _ => None end) tr.

(** What the bridge makes of a captured path: text when it decodes. *)
Definition delivered (g : string) : PyVal :=
  if utf8_valid g then VStr g else VBytes g.

(** The text a trace writes to standard output, oldest first. *)
Definition printed (tr : list Effect) : list string :=
  omap (fun e => match e with EStdout s => Some s | _ => None end) tr.

(** Whether a colon occurs in [s]. *)
Fixpoint has_colon (s : string) : bool :=
  match s with
  | String c s' => Ascii.eqb c ":" || has_colon s'
  | EmptyString => false
  end.

(** The transfer the pull coordinator starts for a value taken from its
    queue, if it starts one: only bytes that decode get that far. *)
Definition pull_cmd (env : Env) (args : Args) (hostname directory tgt : string)
           (v : PyVal) : option (list string) :=
  match v with
  | VBytes b =>
      if utf8_valid b then
        Some (rsync_cmd args (abspath env (expanduser env (cache args)))
                (hostname +:+ ":" +:+
                   (if String.eqb b "." then directory
                    else posixpath.join directory b))
                (if String.eqb b "." then tgt else posixpath.join tgt b))
      else None
  | _ => None
  end.

(** A value the pull coordinator only logs. *)
Definition inert (v : PyVal) : bool :=
  match v with
  | VBytes b => negb (utf8_valid b)
  | _ => true
  end.

(** A component of a normal path: not empty, neither ["."] nor [".."],
    and without a slash. *)
Definition plain_component (c : string) : bool :=
  negb (String.eqb c "") && negb (String.eqb c ".")
  && negb (String.eqb c "..") && negb (has_sep c).

Definition plain (comps : list string) : Prop :=
  Forall (fun c => plain_component c = true) comps.

(** The absolute path with the components [comps]. *)
Definition rooted (comps : list string) : string := "/" +:+ join_sep comps.

(** The slashes [normpath] keeps in front: none, one or two. *)
Definition slashes (n : nat) : string :=
  match n with O => "" | S O => "/" | _ => "//" end.

(** syncit.py line 247, the one change made to the parsed command line:
    [args.cache = os.path.abspath(os.path.expanduser(args.cache))]. *)
Definition main_args (env : Env) (parsed : Args) : Args :=
  mkArgs (pushDelay parsed) (pullDelay parsed) (monitorRemote parsed)
         (retries parsed) (retrySleep parsed) (ssh parsed) (rsync parsed)
         (abspath env (expanduser env (cache parsed))).

(** ** A ship in harbour

    The first session of the remote watcher delivers one path and closes,
    the second launch fails because [ssh] cannot be started; the first
    transfer runs to its end, after it the transfer tool cannot be
    started any more. *)

Definition harbour_env : Env :=
  mkEnv (fun _ => false) (fun p => p) "/" (fun _ => "20.0")
        (fun n _ => if Nat.eqb n 0 then inr (mkCompleted 0 "")
                    else inl (OSError "rsync: No such file or directory"))
        (fun n _ => if Nat.eqb n 0 then inr [":docs" +:+ nl]
                    else inl (OSError "ssh: No such file or directory")).

(** The command line with a negative [--retrySleep]. *)
Definition hasty_args : Args :=
  mkArgs 20%Q 20%Q "/opt/monitorRemote.py" 2 (-1) "/usr/bin/ssh" "/usr/bin/rsync"
         "/var/cache".

Definition harbour_world : World := mkWorld 0%Q [] 1 [].

(** * Properties *)

(** ** The monad *)

Lemma bind_done {A B} (m : M A) (k : A -> M B) w a w' :
  m w = (Done a, w') -> bind m k w = k a w'.
Proof. intros H. unfold bind. by rewrite H. Qed.

Lemma bind_raised {A B} (m : M A) (k : A -> M B) w e w' :
  m w = (Raised e, w') -> bind m k w = (Raised e, w').
Proof. intros H. unfold bind. by rewrite H. Qed.

Lemma bind_inv_done {A B} (m : M A) (k : A -> M B) w b w2 :
  bind m k w = (Done b, w2) ->
  exists a w1, m w = (Done a, w1) /\ k a w1 = (Done b, w2).
Proof.
  unfold bind. destruct (m w) as [[a|e|] w1]; intros H; try discriminate.
  by exists a, w1.
Qed.

Lemma runs_app tr1 tr2 : runs (tr1 ++ tr2) = runs tr1 ++ runs tr2.
Proof. apply omap_app. Qed.

(** ** The wire protocol between watcher and bridge *)

(** C1 (code as it is). The line the watcher prints for a settled batch,
    ["src:<commonPath>\n"], is never matched by the bridge's pattern
    [^:(.+)\s+$], whatever the path: the bridge logs it as an unmatched
    line and puts nothing on its queue. *)
Theorem wire_protocol_mismatch (src : string) (w : World) :
  re.match_group1 line_pattern (watcher_line src) = None /\
  read_lines [watcher_line src] w =
    (Done tt,
     mkWorld (clock w) (inotify w) (spawned w)
             (trace w ++ [ELog INFO "unmatched line %s"
                                [VBytes (watcher_line src)]])).
Proof. split; reflexivity. Qed.

(** A line with the token the pattern expects is delivered. *)
Example bridge_accepts_colon_line (w : World) :
  read_lines [":/tmp/x" +:+ nl; "garbage" +:+ nl] w =
    (Done tt,
     mkWorld (clock w) (inotify w) (spawned w)
             (((trace w ++ [ELog INFO "Sending %s" [VStr "/tmp/x"]])
                ++ [EPut (VStr "/tmp/x")])
                ++ [ELog INFO "unmatched line %s" [VBytes ("garbage" +:+ nl)]])).
Proof. reflexivity. Qed.

(** ** The executor *)

Section ExecutorFacts.

Variable env : Env.
Variable args : Args.

Lemma rsync_with_raised temp src dst w e :
  run_outcome env (spawned w) (rsync_cmd args temp src dst) = inl e ->
  rsync_with env args temp src dst w =
    (Raised e,
     mkWorld (clock w) (inotify w) (S (spawned w))
             (trace w ++ [ERun (rsync_cmd args temp src dst)])).
Proof.
  intros H. unfold rsync_with, subprocess_run, bind. by rewrite H.
Qed.

Lemma rsync_with_completed temp src dst w sp :
  run_outcome env (spawned w) (rsync_cmd args temp src dst) = inr sp ->
  exists lvl msg largs,
    rsync_with env args temp src dst w =
      (Done (returncode sp =? 0)%Z,
       mkWorld (clock w) (inotify w) (S (spawned w))
               (trace w ++ [ERun (rsync_cmd args temp src dst);
                            ELog lvl msg largs]))
    /\ lvl = (if (returncode sp =? 0)%Z then INFO else WARNING)
    /\ (returncode sp <> 0%Z \/ stdout sp <> "" -> captured sp ∈ largs).
Proof.
  intros H. unfold rsync_with, subprocess_run, bind, logging, emit, ret, truthy.
  rewrite H.
  destruct (returncode sp =? 0)%Z eqn:Hrc;
    [destruct (String.eqb (stdout sp) "") eqn:Hout|];
    cbn [negb trace clock inotify spawned];
    do 3 eexists; (split; [by rewrite <- app_assoc|split; [done|]]).
  - apply String.eqb_eq in Hout. apply Z.eqb_eq in Hrc. intros [?|?]; done.
  - intros _. set_solver.
  - intros _. set_solver.
Qed.

(** Whatever the tool does, the executor runs it once. *)
Lemma rsync_with_runs temp src dst w :
  runs (trace (snd (rsync_with env args temp src dst w)))
  = runs (trace w) ++ [rsync_cmd args temp src dst]
  /\ spawned (snd (rsync_with env args temp src dst w)) = S (spawned w)
  /\ clock (snd (rsync_with env args temp src dst w)) = clock w
  /\ inotify (snd (rsync_with env args temp src dst w)) = inotify w
  /\ fst (rsync_with env args temp src dst w) <> Blocked.
Proof.
  destruct (run_outcome env (spawned w) (rsync_cmd args temp src dst))
    as [e|sp] eqn:H.
  - rewrite (rsync_with_raised _ _ _ _ _ H). cbn. by rewrite runs_app.
  - destruct (rsync_with_completed _ _ _ _ _ H) as (l & m & a & -> & _).
    cbn. by rewrite runs_app.
Qed.



End ExecutorFacts.

(** ** The pull coordinator *)

Section PullFacts.

Variable env : Env.
Variable args : Args.
Variables hostname directory tgt : string.

(** C2 (code as it is). A notification that is already text starts no
    transfer: [~isinstance(path, str)] is [-2], which is true, so the
    text goes through [str(path, "UTF-8")], which refuses a [str]; the
    fault is caught and logged. *)
Theorem pull_text_notification_no_transfer (p : string) (w : World) :
  pull_step env args hostname directory tgt (VStr p) w =
    (Done tt,
     mkWorld (clock w) (inotify w) (spawned w)
             (trace w ++ [ELog ERROR "Unable to convert %s to str" [VStr p]])).
Proof. reflexivity. Qed.

(** C10. A sentinel [(timestamp, None)] taken from the queue starts no
    transfer and raises no fault: the conversion refuses the tuple, the
    fault is caught, one log record is written and nothing else of the
    world changes. *)
Theorem pull_sentinel_inert (t : Q) (w : World) :
  pull_step env args hostname directory tgt (sentinel t) w =
    (Done tt,
     mkWorld (clock w) (inotify w) (spawned w)
             (trace w ++ [ELog ERROR "Unable to convert %s to str"
                               [sentinel t]])).
Proof. reflexivity. Qed.

(** The handler of the loop never raises, so nothing that goes wrong
    inside the [try] gets out of it. *)
Lemma try_pull_except_done (body : M unit) (p : PyVal) (w : World) :
  fst (body w) <> Blocked ->
  exists w', try_except body (pull_except p) w = (Done tt, w').
Proof.
  unfold try_except, pull_except, logging, emit.
  destruct (body w) as [[[]|e|] w1]; cbn; intros H; eauto. done.
Qed.

Lemma pull_transfer_not_blocked (p : PyVal) (w : World) :
  fst (pull_transfer env args hostname directory tgt p w) <> Blocked.
Proof.
  destruct p; try done. unfold pull_transfer, rsyncFrom, bind, ret.
  destruct (String.eqb s ".");
    match goal with
    | |- context [rsync_with env args ?t ?x ?y w] =>
        pose proof (rsync_with_runs env args t x y w) as (_ & _ & _ & _ & Hnb);
        destruct (rsync_with env args t x y w) as [[b|e'|] w1]; done
    end.
Qed.

(** Bytes that decode to text:  one transfer, of the whole remote
    directory for ["."] and of the path below it otherwise. *)
Lemma pull_bytes_dispatch (b : string) (w : World) :
  utf8_valid b = true ->
  runs (trace (snd (pull_step env args hostname directory tgt (VBytes b) w)))
  = runs (trace w)
      ++ [rsync_cmd args (abspath env (expanduser env (cache args)))
            (hostname +:+ ":" +:+
               (if String.eqb b "." then directory
                else posixpath.join directory b))
            (if String.eqb b "." then tgt else posixpath.join tgt b)].
Proof.
  intros Hb. unfold pull_step. cbn [isinstance_str str_decode].
  rewrite Hb. change (truthy (invert_bool false)) with true. cbv iota.
  unfold try_except, pull_transfer, rsyncFrom, bind, ret, pull_except,
    logging, emit.
  destruct (String.eqb b ".");
    match goal with
    | |- context [rsync_with env args ?t ?x ?y w] =>
        pose proof (rsync_with_runs env args t x y w) as (Hr & _);
        destruct (rsync_with env args t x y w) as [[ok|e'|] w1];
        cbn in *; rewrite ?runs_app, ?app_nil_r; done
    end.
Qed.

Lemma pull_step_done (path : PyVal) (w : World) :
  exists w', pull_step env args hostname directory tgt path w = (Done tt, w').
Proof.
  unfold pull_step.
  assert (Htr : forall p, exists w',
             try_except (pull_transfer env args hostname directory tgt p)
                        (pull_except p) w = (Done tt, w')).
  { intros p. apply try_pull_except_done, pull_transfer_not_blocked. }
  destruct (truthy _); [|apply Htr].
  destruct (str_decode path) as [e|s]; [|apply Htr].
  unfold pull_except, logging, emit. eauto.
Qed.

(** The same at a fault of the executor itself: the transfer tool cannot
    be started, and the turn still ends normally, the fault logged as a
    failed conversion. *)
Lemma pull_step_swallows_executor_fault (b : string) (w : World) e :
  utf8_valid b = true ->
  (forall cmd, run_outcome env (spawned w) cmd = inl e) ->
  exists cmd,
    pull_step env args hostname directory tgt (VBytes b) w =
      (Done tt,
       mkWorld (clock w) (inotify w) (S (spawned w))
               ((trace w ++ [ERun cmd])
                  ++ [ELog ERROR "Unable to convert %s to str" [VStr b]])).
Proof.
  intros Hb He. unfold pull_step. cbn [isinstance_str str_decode].
  rewrite Hb. change (truthy (invert_bool false)) with true. cbv iota.
  unfold try_except, pull_transfer, rsyncFrom, bind, ret.
  destruct (String.eqb b ".");
    (erewrite rsync_with_raised by apply He); eauto.
Qed.

(** C6 (code as it is). Whatever values the pull coordinator takes from
    its queue and whatever goes wrong while it handles them (the executor
    raising included), its loop goes on to the end of the queue and no
    fault leaves it: the bare [except] catches every fault and logs it,
    nothing reaches the supervisor. *)
Theorem pull_loop_swallows_every_fault (notifications : list PyVal)
        (w : World) :
  exists w', pull_loop env args hostname directory tgt notifications w
             = (Done tt, w').
Proof.
  revert w. induction notifications as [|p ps IH]; intros w; cbn.
  - by eexists.
  - destruct (pull_step_done p w) as [w1 H1].
    rewrite (bind_done _ _ _ _ _ H1). apply IH.
Qed.

End PullFacts.

(** ** Debouncing *)

Local Open Scope Q_scope.

Lemma py_max_l a b : a <= py_max a b.
Proof.
  unfold py_max. destruct (Qle_bool b a) eqn:H; [lra|].
  apply not_true_iff_false in H. rewrite Qle_bool_iff in H. lra.
Qed.

Lemma py_max_r a b : b <= py_max a b.
Proof.
  unfold py_max. destruct (Qle_bool b a) eqn:H; [|lra].
  by apply Qle_bool_iff.
Qed.

Lemma py_max_Qmax a b : py_max a b == Qmax a b.
Proof.
  unfold py_max. destruct (Qle_bool b a) eqn:H.
  - apply Qle_bool_iff in H. symmetry. by apply Q.max_l.
  - apply not_true_iff_false in H. rewrite Qle_bool_iff in H.
    symmetry. apply Q.max_r. lra.
Qed.

Section DebounceFacts.

Variable env : Env.
Variable args : Args.

(** The events [drain_events] takes are those at the head of the queue
    whose time has come; it stops at the first one still to come. *)
Lemma drain_events_spec (now : Q) (q : list Event) (sources : gset string) :
  exists taken,
    q = taken ++ fst (drain_events env now q sources)
    /\ Forall (fun ev => fst ev <= now) taken
    /\ match fst (drain_events env now q sources) with
       | ev :: _ => ~ fst ev <= now
       | [] => True
       end
    /\ snd (drain_events env now q sources)
       = sources ∪ list_to_set (map (fun ev => dir_of env (snd ev)) taken).
Proof.
  revert sources. induction q as [|ev q IH]; intros sources; cbn.
  - exists []. split_and!; [done|constructor|done|set_solver].
  - destruct (Qle_bool (fst ev) now) eqn:Hle.
    + destruct (IH (sources ∪ {[dir_of env (snd ev)]})) as (tk & E & F & N & S).
      exists (ev :: tk). split_and!.
      * cbn. by rewrite <- E.
      * constructor; [by apply Qle_bool_iff|done].
      * done.
      * rewrite S. cbn. set_solver.
    + exists []. split_and!; [done|constructor| |cbn; set_solver].
      cbn. rewrite <- Qle_bool_iff. by rewrite Hle.
Qed.

Lemma sleep_then_drain (c dt : Q) (rest : list Event) (n : nat)
      (tr : list Effect) (e : Effect) (S0 : gset string) :
  0 <= dt ->
  bind (emit e) (fun _ => bind (time_sleep dt) (fun _ => drain env S0))
       (mkWorld c rest n tr)
  = (Done (snd (drain_events env (c + dt) rest S0)),
     mkWorld (c + dt) (fst (drain_events env (c + dt) rest S0)) n
             (tr ++ [e; ESleep dt])).
Proof.
  intros Hdt. unfold bind, emit, time_sleep, drain. cbn.
  apply Qle_bool_iff in Hdt. rewrite Hdt. cbn.
  destruct (drain_events env (c + dt) rest S0). cbn.
  by rewrite <- app_assoc.
Qed.

Lemma push_batch_contract (sources : gset string) (w : World) :
  debounce_contract env (push_batch env args sources) (pushDelay args)
                    sources w.
Proof.
  unfold debounce_contract.
  destruct w as [c [|[t0 fn] rest] n tr]; cbn [inotify clock spawned trace];
    [done|].
  unfold push_batch, logging.
  rewrite (bind_done _ _ _ (t0, fn) (mkWorld (Qmax c t0) rest n tr)) by done.
  rewrite (bind_done _ _ _ (Qmax c t0) (mkWorld (Qmax c t0) rest n tr)) by done.
  set (dt := py_max (t0 - Qmax c t0 + pushDelay args) (1 # 10)).
  pose proof (py_max_r (t0 - Qmax c t0 + pushDelay args) (1 # 10)) as Hr.
  pose proof (py_max_l (t0 - Qmax c t0 + pushDelay args) (1 # 10)) as Hl.
  rewrite sleep_then_drain by (fold dt in Hr; lra).
  destruct (drain_events_spec (Qmax c t0 + dt) rest
              (sources ∪ {[dir_of env fn]})) as (tk & E & F & N & S).
  exists dt, tk, (fst (drain_events env (Qmax c t0 + dt) rest
                         (sources ∪ {[dir_of env fn]}))).
  do 3 eexists. split_and!; try done.
  - unfold dt. rewrite py_max_Qmax. apply Q.max_comm.
  - fold dt in Hl. lra.
Qed.



(** What a finished batch of the push coordinator leaves behind. *)
Lemma push_batch_done (sources D : gset string) (w w1 : World) :
  push_batch env args sources w = (Done D, w1) ->
  sources ⊆ D /\ D <> ∅ /\ spawned w1 = spawned w
  /\ exists es, trace w1 = trace w ++ es /\ runs es = [].
Proof.
  intros H. pose proof (push_batch_contract sources w) as C.
  unfold debounce_contract in C.
  destruct (inotify w) as [|[t0 fn] rest]; [congruence|].
  destruct C as (dt & tk & left & D' & msg & largs & E & _ & _ & _ & _ & _ & _ & HD).
  rewrite E in H. injection H as <- <-. cbn.
  split_and!; [set_solver|set_solver|done|by eexists].
Qed.

End DebounceFacts.

(** ** The bridge: reconnection and give-up *)

Lemma backoff_view_app tr1 tr2 :
  backoff_view (tr1 ++ tr2) = backoff_view tr1 ++ backoff_view tr2.
Proof. apply omap_app. Qed.

Section BridgeFacts.

Variable env : Env.
Variable args : Args.

(** Reading the lines of a session neither sleeps nor connects nor puts
    a sentinel, and it always comes to the end of the session. *)
Lemma read_lines_view (lines : list string) (w : World) :
  exists es,
    read_lines lines w
    = (Done tt, mkWorld (clock w) (inotify w) (spawned w) (trace w ++ es))
    /\ backoff_view es = [].
Proof.
  revert w. induction lines as [|line rest IH]; intros w; cbn [read_lines].
  - exists []. by rewrite app_nil_r; destruct w.
  - destruct (String.eqb line "").
    { exists []. by rewrite app_nil_r; destruct w. }
    destruct (re.match_group1 line_pattern line) as [g|].
    + unfold bind, logging, emit.
      match goal with |- context [read_lines rest ?w1] =>
        destruct (IH w1) as (es & -> & Hes) end.
      cbn [clock inotify spawned trace]. eexists. split.
      * by rewrite <- !app_assoc.
      * rewrite !backoff_view_app, Hes.
        by destruct (str_decode (VBytes g)).
    + unfold bind, logging, emit.
      match goal with |- context [read_lines rest ?w1] =>
        destruct (IH w1) as (es & -> & Hes) end.
      cbn [clock inotify spawned trace]. eexists. split.
      * by rewrite <- !app_assoc.
      * by rewrite !backoff_view_app, Hes.
Qed.



End BridgeFacts.

(** ** The common path *)

Section CommonPath.

Import posixpath.

(** *** The order on path components and on their lists *)

Lemma str_ltb_lt (a b : string) :
  String.ltb a b = true <-> OrderedTypeEx.String_as_OT.lt a b.
Proof.
  rewrite <- OrderedTypeEx.String_as_OT.cmp_lt.
  unfold String.ltb, OrderedTypeEx.String_as_OT.cmp.
  destruct (String.compare a b); split; congruence.
Qed.

Lemma str_ltb_trans (a b c : string) :
  String.ltb a b = true -> String.ltb b c = true -> String.ltb a c = true.
Proof.
  rewrite !str_ltb_lt. apply OrderedTypeEx.String_as_OT.lt_trans.
Qed.

Lemma str_ltb_total (a b : string) :
  a <> b -> String.ltb a b = true \/ String.ltb b a = true.
Proof.
  intros Hne. unfold String.ltb. rewrite (String.compare_antisym a b).
  destruct (String.compare b a) eqn:H; cbn; auto.
  apply String.compare_eq_iff in H. congruence.
Qed.

Lemma str_ltb_asym (a b : string) :
  String.ltb a b = true -> String.ltb b a = false.
Proof.
  unfold String.ltb. rewrite (String.compare_antisym a b).
  by destruct (String.compare b a).
Qed.

Lemma list_lt_irrefl (l : list string) : list_lt l l = false.
Proof. induction l as [|a l IH]; cbn; [done|]. by rewrite String.eqb_refl. Qed.

Lemma list_lt_asym (l1 l2 : list string) :
  list_lt l1 l2 = true -> list_lt l2 l1 = false.
Proof.
  revert l2. induction l1 as [|a l1 IH]; intros [|b l2]; cbn; try done.
  rewrite (String.eqb_sym b a).
  destruct (String.eqb_spec a b); [apply IH|apply str_ltb_asym].
Qed.

Lemma list_lt_total (l1 l2 : list string) :
  l1 <> l2 -> list_lt l1 l2 = true \/ list_lt l2 l1 = true.
Proof.
  revert l2. induction l1 as [|a l1 IH]; intros [|b l2] Hne; cbn; auto.
  rewrite (String.eqb_sym b a).
  destruct (String.eqb_spec a b) as [->|Hab].
  - apply IH. congruence.
  - by apply str_ltb_total.
Qed.

Lemma list_lt_trans (l1 l2 l3 : list string) :
  list_lt l1 l2 = true -> list_lt l2 l3 = true -> list_lt l1 l3 = true.
Proof.
  revert l2 l3.
  induction l1 as [|a l1 IH]; intros [|b l2] [|c l3]; cbn; try done.
  destruct (String.eqb_spec a b) as [->|Hab].
  - destruct (String.eqb_spec b c) as [->|Hbc]; [apply IH|done].
  - destruct (String.eqb_spec b c) as [->|Hbc].
    + rewrite (proj2 (String.eqb_neq a c)) by done. done.
    + intros H1 H2. pose proof (str_ltb_trans _ _ _ H1 H2) as H3.
      destruct (String.eqb_spec a c) as [->|Hac]; [|done].
      apply str_ltb_asym in H1. congruence.
Qed.

(** [x < r], [r <= c] give [x < c]. *)
Lemma list_lt_le_trans (x r c : list string) :
  list_lt x r = true -> list_lt c r = false -> list_lt x c = true.
Proof.
  intros Hxr Hcr. destruct (decide (r = c)) as [<-|Hne]; [done|].
  destruct (list_lt_total r c Hne) as [H|H]; [|congruence].
  by eapply list_lt_trans.
Qed.

(** *** [min] and [max] *)

Lemma min_from_spec (cur : list string) (l : list (list string)) :
  min_from cur l ∈ cur :: l
  /\ forall x, x ∈ cur :: l -> list_lt x (min_from cur l) = false.
Proof.
  revert cur. induction l as [|y l IH]; intros cur; cbn [min_from].
  - split; [set_solver|]. intros x ->%list_elem_of_singleton.
    apply list_lt_irrefl.
  - destruct (IH (if list_lt y cur then y else cur)) as [Hin Hmin].
    split.
    + destruct (list_lt y cur); set_solver.
    + intros x Hx.
      destruct (list_lt x (min_from _ l)) eqn:Hlt; [exfalso|done].
      destruct (list_lt y cur) eqn:Hyc.
      * apply elem_of_cons in Hx as [->|Hx].
        -- pose proof (Hmin y ltac:(set_solver)) as Hy.
           pose proof (list_lt_le_trans _ _ _ Hlt Hy) as Hcy.
           apply list_lt_asym in Hcy. congruence.
        -- rewrite Hmin in Hlt by set_solver. done.
      * apply elem_of_cons in Hx as [->|[->|Hx]%elem_of_cons].
        -- rewrite Hmin in Hlt by set_solver. done.
        -- pose proof (Hmin cur ltac:(set_solver)) as Hc.
           pose proof (list_lt_le_trans _ _ _ Hlt Hc). congruence.
        -- rewrite Hmin in Hlt by set_solver. done.
Qed.

Lemma max_from_spec (cur : list string) (l : list (list string)) :
  max_from cur l ∈ cur :: l
  /\ forall x, x ∈ cur :: l -> list_lt (max_from cur l) x = false.
Proof.
  revert cur. induction l as [|y l IH]; intros cur; cbn [max_from].
  - split; [set_solver|]. intros x ->%list_elem_of_singleton.
    apply list_lt_irrefl.
  - destruct (IH (if list_lt cur y then y else cur)) as [Hin Hmax].
    split.
    + destruct (list_lt cur y); set_solver.
    + intros x Hx.
      destruct (list_lt (max_from _ l) x) eqn:Hlt; [exfalso|done].
      destruct (list_lt cur y) eqn:Hcy.
      * apply elem_of_cons in Hx as [->|Hx].
        -- pose proof (Hmax y ltac:(set_solver)) as Hy.
           (* max < cur, cur < y, so max < y *)
           pose proof (list_lt_trans _ _ _ Hlt Hcy). congruence.
        -- rewrite Hmax in Hlt by set_solver. done.
      * apply elem_of_cons in Hx as [->|[->|Hx]%elem_of_cons].
        -- rewrite Hmax in Hlt by set_solver. done.
        -- pose proof (Hmax cur ltac:(set_solver)) as Hc.
           (* max < y, not cur < y, max >= cur *)
           destruct (decide (max_from cur l = cur)) as [E|Hne].
           ++ rewrite E in Hlt. congruence.
           ++ destruct (list_lt_total _ _ Hne) as [H|H]; [congruence|].
              pose proof (list_lt_trans _ _ _ H Hlt). congruence.
        -- rewrite Hmax in Hlt by set_solver. done.
Qed.

(** *** The loop over the smallest and the largest list *)

Lemma common_loop_total (s1 s2 : list string) :
  list_lt s2 s1 = false -> exists p, common_loop s1 s2 = inr p.
Proof.
  revert s2. induction s1 as [|c s1 IH]; intros [|d s2]; cbn; eauto.
  - done.
  - rewrite (String.eqb_sym d c). destruct (String.eqb c d); [|eauto].
    intros H. destruct (IH _ H) as [p ->]. eauto.
Qed.

Lemma common_loop_prefix (s1 s2 p : list string) :
  common_loop s1 s2 = inr p -> p `prefix_of` s1 /\ p `prefix_of` s2.
Proof.
  revert s2 p. induction s1 as [|c s1 IH]; intros [|d s2] p; cbn;
    try (intros [= <-]; split; apply prefix_nil); try done.
  destruct (String.eqb_spec c d) as [->|Hcd].
  - destruct (common_loop s1 s2) as [e|p'] eqn:Hp; [done|].
    intros [= <-]. destruct (IH _ _ Hp). split; by apply prefix_cons.
  - intros [= <-]. split; apply prefix_nil.
Qed.

Lemma common_loop_between (s1 s2 s p : list string) :
  common_loop s1 s2 = inr p ->
  list_lt s s1 = false -> list_lt s2 s = false -> p `prefix_of` s.
Proof.
  revert s2 s p. induction s1 as [|c s1 IH]; intros [|d s2] s p; cbn;
    try (intros [= <-]; intros; apply prefix_nil); try done.
  destruct (String.eqb_spec c d) as [->|Hcd];
    [|intros [= <-]; intros; apply prefix_nil].
  destruct (common_loop s1 s2) as [e|p'] eqn:Hp; [done|].
  intros [= <-]. destruct s as [|e s]; cbn; [done|].
  rewrite (String.eqb_sym d e).
  destruct (String.eqb_spec e d) as [->|Hed].
  - intros H1 H2. apply prefix_cons. by eapply IH.
  - intros H1 H2. destruct (str_ltb_total e d Hed); congruence.
Qed.

Lemma common_loop_longest (s1 s2 p q : list string) :
  common_loop s1 s2 = inr p ->
  q `prefix_of` s1 -> q `prefix_of` s2 -> q `prefix_of` p.
Proof.
  revert s2 p q. induction s1 as [|c s1 IH]; intros [|d s2] p q; cbn.
  - intros [= <-]. done.
  - intros [= <-]. done.
  - done.
  - destruct q as [|x q]; [intros; apply prefix_nil|].
    intros Hp H1 H2.
    pose proof (prefix_cons_inv_1 _ _ _ _ H1) as ->.
    pose proof (prefix_cons_inv_1 _ _ _ _ H2) as ->.
    rewrite String.eqb_refl in Hp.
    destruct (common_loop s1 s2) as [e|p'] eqn:Hp'; [done|].
    injection Hp as <-. apply prefix_cons.
    eapply IH; [done|by eapply prefix_cons_inv_2..].
Qed.

(** *** Splitting and joining *)

Lemma split_sep_cons (s : string) : exists w ws, split_sep s = w :: ws.
Proof.
  induction s as [|c s (w & ws & IH)]; cbn; [eauto|].
  destruct (Ascii.eqb c sep); [eauto|]. rewrite IH. eauto.
Qed.

Lemma split_sep_has_sep (s : string) :
  Forall (fun c => has_sep c = false) (split_sep s).
Proof.
  induction s as [|c s IH]; cbn; [by repeat constructor|].
  destruct (Ascii.eqb c sep) eqn:Hc; [by constructor|].
  destruct (split_sep s) as [|w ws].
  - repeat constructor. cbn. by rewrite Hc.
  - inversion_clear IH. constructor; [|done]. cbn. by rewrite Hc.
Qed.

Lemma split_sep_component (c : string) :
  has_sep c = false -> split_sep c = [c].
Proof.
  induction c as [|a c IH]; cbn; [done|].
  destruct (Ascii.eqb a sep); cbn; [done|]. intros H. by rewrite IH.
Qed.

Lemma split_sep_app (c r : string) :
  has_sep c = false -> split_sep (c +:+ String sep r) = c :: split_sep r.
Proof.
  induction c as [|a c IH]; [done|].
  change (String a c +:+ String sep r) with (String a (c +:+ String sep r)).
  cbn [has_sep split_sep].
  destruct (Ascii.eqb a sep); cbn [orb]; [done|]. intros H. by rewrite IH.
Qed.

Lemma split_join (l : list string) :
  l <> [] -> Forall (fun c => has_sep c = false) l ->
  split_sep (join_sep l) = l.
Proof.
  induction l as [|x l IH]; [done|]. intros _ Hl. inversion_clear Hl.
  destruct l as [|y l]; [by apply split_sep_component|].
  change (join_sep (x :: y :: l)) with (x +:+ String sep (join_sep (y :: l))).
  rewrite split_sep_app by done. by rewrite IH.
Qed.

Lemma components_good (path : string) :
  Forall good_component (components path).
Proof.
  unfold components. apply Forall_forall. intros c Hc.
  apply list_elem_of_In, filter_In in Hc as [Hin Hc].
  apply andb_true_iff in Hc as [H1 H2].
  pose proof (split_sep_has_sep path) as Hs.
  rewrite Forall_forall in Hs. split_and!.
  - intros ->. done.
  - intros ->. done.
  - by apply Hs, list_elem_of_In.
Qed.

Lemma filter_good (l : list string) :
  Forall good_component l ->
  List.filter (fun c => negb (String.eqb c "") && negb (String.eqb c ".")) l = l.
Proof.
  induction 1 as [|c l (H1 & H2 & _) _ IH]; cbn; [done|].
  rewrite (proj2 (String.eqb_neq c "")), (proj2 (String.eqb_neq c ".")) by done.
  cbn. by rewrite IH.
Qed.

Lemma components_join (absolute : bool) (common : list string) :
  Forall good_component common ->
  components ((if absolute then "/" else "") +:+ join_sep common) = common.
Proof.
  intros Hg. unfold components.
  assert (Hs : Forall (fun c => has_sep c = false) common).
  { eapply Forall_impl; [done|]. by intros c (_ & _ & H). }
  destruct common as [|x l].
  - by destruct absolute.
  - destruct absolute.
    + change ("/" +:+ join_sep (x :: l)) with (String sep (join_sep (x :: l))).
      change (split_sep (String sep (join_sep (x :: l))))
        with ("" :: split_sep (join_sep (x :: l))).
      rewrite split_join by done. exact (filter_good _ Hg).
    + change ("" +:+ join_sep (x :: l)) with (join_sep (x :: l)).
      rewrite split_join by done. by apply filter_good.
Qed.

(** *** [commonpath] *)

Lemma commonpath_spec (p0 : string) (rest : list string) :
  Forall (fun p => isabs p = isabs p0) rest ->
  exists common,
    commonpath (p0 :: rest)
    = inr ((if isabs p0 then "/" else "") +:+ join_sep common)
    /\ Forall good_component common
    /\ (forall m, m ∈ p0 :: rest -> common `prefix_of` components m)
    /\ (forall q, (forall m, m ∈ p0 :: rest -> q `prefix_of` components m) ->
                 q `prefix_of` common).
Proof.
  intros Habs. unfold commonpath.
  assert (forallb (fun p => Bool.eqb (isabs p) (isabs p0)) rest = true) as ->.
  { apply forallb_forall. intros p Hp%list_elem_of_In.
    rewrite Forall_forall in Habs. rewrite (Habs p Hp).
    apply Bool.eqb_reflx. }
  cbn [map].
  set (s0 := components p0). set (ss := map components rest).
  destruct (min_from_spec s0 ss) as [Hmin_in Hmin].
  destruct (max_from_spec s0 ss) as [Hmax_in Hmax].
  assert (Hmem : forall m, m ∈ p0 :: rest -> components m ∈ s0 :: ss).
  { intros m [->|Hm]%elem_of_cons; [left|right].
    by apply list_elem_of_fmap_2. }
  assert (Hrep : forall s, s ∈ s0 :: ss -> exists m, m ∈ p0 :: rest /\ s = components m).
  { intros s [->|Hs]%elem_of_cons.
    - exists p0. split; [left|done].
    - apply list_elem_of_fmap in Hs as (m & -> & Hm).
      exists m. split; [by right|done]. }
  destruct (common_loop_total (min_from s0 ss) (max_from s0 ss)) as [common Hc].
  { by apply Hmax. }
  rewrite Hc. exists common. split; [done|].
  destruct (common_loop_prefix _ _ _ Hc) as [Hp1 Hp2].
  split_and!.
  - destruct (Hrep _ Hmin_in) as (m1 & _ & E1).
    destruct Hp1 as [k Hk]. pose proof (components_good m1) as Hg.
    rewrite <- E1, Hk in Hg. by apply Forall_app in Hg as [? _].
  - intros m Hm. eapply common_loop_between; [done| |].
    + by apply Hmin, Hmem.
    + by apply Hmax, Hmem.
  - intros q Hq.
    destruct (Hrep _ Hmin_in) as (m1 & Hm1 & E1).
    destruct (Hrep _ Hmax_in) as (m2 & Hm2 & E2).
    eapply common_loop_longest; [done| |].
    + rewrite E1. by apply Hq.
    + rewrite E2. by apply Hq.
Qed.

(** C8. For a non-empty DirtySet of absolute paths, [os.path.commonpath]
    returns an absolute path whose components are a prefix of the
    components of every member, and the longest such prefix: every list
    of components shared as a prefix by all members is a prefix of it.
    In particular the members [/a/b], [/a/b/c] and [/a/d] give [/a]. *)
Theorem commonpath_longest_shared_prefix :
  (forall sources : gset string,
      sources <> ∅ ->
      (forall m, m ∈ sources -> isabs m = true) ->
      exists p,
        commonpath (elements sources) = inr p
        /\ isabs p = true
        /\ (forall m, m ∈ sources -> components p `prefix_of` components m)
        /\ (forall q, (forall m, m ∈ sources -> q `prefix_of` components m) ->
                     q `prefix_of` components p))
  /\ commonpath (elements ({["/a/b"]} ∪ {["/a/b/c"]} ∪ {["/a/d"]} : gset string))
     = inr "/a".
Proof.
  split; [|by vm_compute].
  intros sources Hne Habs.
  destruct (elements sources) as [|p0 rest] eqn:He.
  { apply elements_empty_inv in He. by apply leibniz_equiv in He. }
  assert (Hin : forall m, m ∈ sources <-> m ∈ p0 :: rest).
  { intros m. by rewrite <- He, elem_of_elements. }
  destruct (commonpath_spec p0 rest) as (common & Hc & Hg & Hpre & Hmax).
  { apply Forall_forall. intros p Hp.
    rewrite !Habs; [done|apply Hin; by left|apply Hin; by right]. }
  rewrite (Habs p0) in Hc by (apply Hin; by left).
  eexists. split; [done|].
  rewrite (components_join true) by done.
  split_and!.
  - done.
  - intros m Hm. by apply Hpre, Hin.
  - intros q Hq. apply Hmax. intros m Hm. by apply Hq, Hin.
Qed.

End CommonPath.

(** ** The push coordinator *)

Section PushFacts.

Variable env : Env.
Variable args : Args.

Lemma sync_targets_done src dest targets (q b : bool) (w w' : World) :
  sync_targets env args src dest targets q w = (Done b, w') ->
  b = q && transfers_ok env (spawned w) (push_cmds args src dest targets)
  /\ runs (trace w') = runs (trace w) ++ push_cmds args src dest targets
  /\ spawned w' = (spawned w + length targets)%nat.
Proof.
  revert q w. induction targets as [|tgt rest IH]; intros q w; cbn.
  - intros [= <- <-]. rewrite andb_true_r, app_nil_r. split_and!; [done|done|lia].
  - unfold bind at 1, rsyncTo.
    destruct (run_outcome env (spawned w)
                (rsync_cmd args (cache args) src (dest tgt))) as [e|sp] eqn:Hrun.
    + by rewrite (rsync_with_raised _ _ _ _ _ _ _ Hrun).
    + destruct (rsync_with_completed _ _ _ _ _ _ _ Hrun)
        as (lvl & msg & largs & -> & _ & _).
      intros H. apply IH in H as (-> & Hruns & Hsp).
      cbn [spawned trace] in *. unfold transfer_ok. rewrite Hrun.
      split_and!.
      * by destruct (returncode sp =? 0)%Z, q.
      * rewrite Hruns, runs_app. cbn. by rewrite <- app_assoc.
      * lia.
Qed.

Lemma sync_targets_completes src dest targets (q : bool) (w : World) :
  (forall n cmd, exists sp, run_outcome env n cmd = inr sp) ->
  exists b w', sync_targets env args src dest targets q w = (Done b, w').
Proof.
  intros Hrun. revert q w.
  induction targets as [|tgt rest IH]; intros q w; cbn; [by eauto|].
  unfold bind at 1, rsyncTo.
  destruct (Hrun (spawned w) (rsync_cmd args (cache args) src (dest tgt)))
    as [sp Hsp].
  destruct (rsync_with_completed _ _ _ _ _ _ _ Hsp)
    as (lvl & msg & largs & -> & _ & _).
  apply IH.
Qed.

(** A finished fan-out, taken apart. *)
Lemma push_fanout_done (self : PushTo) (sources s' : gset string) (w w' : World) :
  push_fanout env args self sources w = (Done s', w') ->
  exists src rel,
    posixpath.commonpath (elements sources) = inr src
    /\ posixpath.relpath (getcwd env) src (push_dirRoot self) = inr rel
    /\ runs (trace w')
       = runs (trace w)
           ++ push_cmds args src (push_dest rel) (push_targets self)
    /\ s' = (if transfers_ok env (spawned w)
                  (push_cmds args src (push_dest rel) (push_targets self))
             then ∅ else sources).
Proof.
  unfold push_fanout. intros H.
  apply bind_inv_done in H as (src & w1 & Hsrc & H).
  apply bind_inv_done in H as (rel & w2 & Hrel & H).
  apply bind_inv_done in H as (b & w3 & Hsync & H).
  unfold lift in Hsrc, Hrel.
  destruct (posixpath.commonpath (elements sources)) as [e|src'] eqn:Ec;
    [done|]. injection Hsrc as -> ->.
  destruct (posixpath.relpath (getcwd env) src (push_dirRoot self))
    as [e|rel'] eqn:Er; [done|]. injection Hrel as -> ->.
  apply sync_targets_done in Hsync as (-> & Hruns & _).
  injection H as <- <-. exists src, rel. by split_and!.
Qed.

(** C7. In every steady push cycle that comes to its end, with [src]
    the common path and [rel] its path relative to the tree root, the
    executor is run once per configured target, in order, from [src] to
    the target itself when [rel] is ["."] and to [os.path.join(target,
    rel)] otherwise, which is [target/rel] for a target that is not empty
    and has no trailing slash. With root [/root] and target [dest], the
    common path [/root/sub] gives [dest/sub] and the root itself gives
    [dest]. *)
Theorem relative_fanout :
  (forall (self : PushTo) (sources s' : gset string) (w w' : World),
      push_cycle env args self sources w = (Done s', w') ->
      exists D w1 src rel,
        push_batch env args sources w = (Done D, w1)
        /\ posixpath.commonpath (elements D) = inr src
        /\ posixpath.relpath (getcwd env) src (push_dirRoot self) = inr rel
        /\ runs (trace w')
           = runs (trace w)
               ++ map (fun tgt =>
                         rsync_cmd args (cache args) src
                           (if String.eqb rel "." then tgt
                            else posixpath.join tgt rel))
                      (push_targets self))
  /\ (forall tgt rel,
         tgt <> "" -> endswith_sep tgt = false -> startswith_sep rel = false ->
         posixpath.join tgt rel = tgt +:+ "/" +:+ rel)
  /\ (posixpath.relpath (getcwd env) "/root/sub" "/root" = inr "sub"
      /\ push_dest "sub" "dest" = "dest/sub")
  /\ (posixpath.relpath (getcwd env) "/root" "/root" = inr "."
      /\ push_dest "." "dest" = "dest").
Proof.
  split_and!; try done.
  - intros self sources s' w w' H. unfold push_cycle in H.
    apply bind_inv_done in H as (D & w1 & Hb & Hf).
    destruct (push_batch_done _ _ _ _ _ _ Hb) as (_ & _ & _ & es & Ht & Hes).
    apply push_fanout_done in Hf as (src & rel & Hc & Hr & Hruns & _).
    exists D, w1, src, rel. split_and!; try done.
    rewrite Hruns, Ht, runs_app, Hes, app_nil_r. f_equal.
    unfold push_cmds, push_dest. apply map_ext. intros tgt.
    by destruct (String.eqb rel ".").
  - intros tgt rel Hne He Hs. unfold posixpath.join. rewrite Hs, He.
    by rewrite (proj2 (String.eqb_neq tgt "")).
Qed.

(** C3. After the initial sync and after every steady cycle that comes to
    its end, the DirtySet is empty if and only if every target's transfer
    of that cycle ended with exit status zero. When one of them failed,
    the set is kept whole: after the initial sync it is the tree root,
    after a steady cycle it is the set of the flush, which holds the
    members it had before the cycle, and the set the next cycle flushes
    holds them too. *)
Theorem dirtyset_bookkeeping (self : PushTo) (sources : gset string)
        (w : World) :
  (forall s w',
      push_initial env args self w = (Done s, w') ->
      let ok := transfers_ok env (spawned w)
                  (push_cmds args (push_dirRoot self) (fun tgt => tgt)
                             (push_targets self)) in
      (s = ∅ <-> ok = true)
      /\ (ok = false -> s = {[push_dirRoot self]}))
  /\ (forall s w',
        push_cycle env args self sources w = (Done s, w') ->
        exists D w1 src rel,
          push_batch env args sources w = (Done D, w1)
          /\ sources ⊆ D
          /\ posixpath.commonpath (elements D) = inr src
          /\ posixpath.relpath (getcwd env) src (push_dirRoot self) = inr rel
          /\ let ok := transfers_ok env (spawned w1)
                         (push_cmds args src (push_dest rel)
                                    (push_targets self)) in
             (s = ∅ <-> ok = true)
             /\ (ok = false ->
                 s = D
                 /\ forall D' w2,
                     push_batch env args s w' = (Done D', w2) ->
                     sources ⊆ D')).
Proof.
  split.
  - intros s w' H ok. unfold push_initial in H.
    apply bind_inv_done in H as ([] & w0 & Hlog & H).
    apply bind_inv_done in H as (b & w1 & Hsync & H).
    unfold logging, emit in Hlog. injection Hlog as <-.
    apply sync_targets_done in Hsync as (-> & _ & _).
    cbn [spawned andb] in H. fold ok in H. injection H as <- _.
    destruct ok; split.
    + done.
    + done.
    + split; [|done]. intros E. exfalso.
      assert (push_dirRoot self ∈ (∅ : gset string)) by (rewrite <- E; set_solver).
      set_solver.
    + intros _. set_solver.
  - intros s w' H. unfold push_cycle in H.
    apply bind_inv_done in H as (D & w1 & Hb & Hf).
    destruct (push_batch_done _ _ _ _ _ _ Hb) as (Hsub & Hne & _).
    apply push_fanout_done in Hf as (src & rel & Hc & Hr & _ & Hs).
    exists D, w1, src, rel. split_and!; try done.
    intros ok. fold ok in Hs. rewrite Hs. destruct ok; split.
    + done.
    + done.
    + split; [|done]. intros E. by rewrite E in Hne.
    + intros _. split; [done|]. intros D' w2 Hb'.
      destruct (push_batch_done _ _ _ _ _ _ Hb') as (Hsub' & _).
      set_solver.
Qed.

End PushFacts.

(** ** Cycles come to their end *)

Section Completion.

Variable env : Env.
Variable args : Args.

Lemma rstrip_sep_nonempty (s : string) :
  all_sep s = false -> rstrip_sep s <> "".
Proof.
  induction s as [|c s IH]; cbn; [done|].
  destruct (Ascii.eqb c sep); cbn.
  - intros H. specialize (IH H). by destruct (rstrip_sep s).
  - intros _. by destruct (rstrip_sep s).
Qed.

Lemma dirname_isabs (p : string) :
  posixpath.isabs p = true -> posixpath.isabs (posixpath.dirname p) = true.
Proof.
  destruct p as [|c p]; [done|]. cbn [posixpath.isabs startswith_sep].
  intros Hc. unfold posixpath.dirname. cbn [upto_last_sep]. rewrite Hc.
  set (head := match upto_last_sep p with
               | "" => String c ""
               | String a s => String c (String a s)
               end).
  assert (Hh : exists r, head = String c r).
  { unfold head. destruct (upto_last_sep p); eauto. }
  destruct Hh as [r ->]. cbn [String.eqb negb andb all_sep]. rewrite Hc.
  cbn [andb]. destruct (all_sep r) eqn:Hr; cbn [negb].
  - cbn. by rewrite Hc.
  - cbn [rstrip_sep]. pose proof (rstrip_sep_nonempty r Hr).
    destruct (rstrip_sep r); [done|]. cbn. by rewrite Hc.
Qed.

Lemma dir_of_isabs (fn : string) :
  posixpath.isabs fn = true -> posixpath.isabs (dir_of env fn) = true.
Proof.
  intros H. unfold dir_of. destruct (isdir env fn); [done|].
  by apply dirname_isabs.
Qed.

Lemma relpath_total (cwd path start : string) :
  path <> "" -> exists rel, posixpath.relpath cwd path start = inr rel.
Proof.
  intros H. unfold posixpath.relpath.
  rewrite (proj2 (String.eqb_neq path "")) by done.
  match goal with |- context [match ?l with [] => _ | _ :: _ => _ end] =>
    destruct l end; eauto.
Qed.

(** The common path of a non-empty set of absolute paths is there and is
    absolute. *)
Lemma commonpath_total (sources : gset string) :
  sources <> ∅ ->
  (forall m, m ∈ sources -> posixpath.isabs m = true) ->
  exists src, posixpath.commonpath (elements sources) = inr src
              /\ posixpath.isabs src = true.
Proof.
  intros Hne Habs.
  destruct (elements sources) as [|p0 rest] eqn:He.
  { apply elements_empty_inv in He. by apply leibniz_equiv in He. }
  assert (Hin : forall m, m ∈ p0 :: rest -> m ∈ sources).
  { intros m. by rewrite <- He, elem_of_elements. }
  destruct (commonpath_spec p0 rest) as (common & Hc & _).
  { apply Forall_forall. intros p Hp.
    rewrite !Habs; [done|apply Hin; by left|apply Hin; by right]. }
  rewrite (Habs p0) in Hc by (apply Hin; by left).
  eexists. split; [done|done].
Qed.

(** With an event to start from, absolute paths throughout, and a
    transfer tool that runs to its end, a steady push cycle comes to its
    end. *)
Lemma push_cycle_completes (self : PushTo) (sources : gset string) (w : World) :
  inotify w <> [] ->
  (forall m, m ∈ sources -> posixpath.isabs m = true) ->
  Forall (fun ev => posixpath.isabs (snd ev) = true) (inotify w) ->
  (forall n cmd, exists sp, run_outcome env n cmd = inr sp) ->
  exists s w', push_cycle env args self sources w = (Done s, w').
Proof.
  intros Hq Hsrc Hev Hrun.
  pose proof (push_batch_contract env args sources w) as C.
  unfold debounce_contract in C.
  destruct (inotify w) as [|[t0 fn] rest]; [done|].
  destruct C as (dt & tk & left & D & msg & largs & E & _ & _ & _ & Hrest & _ & _ & HD).
  unfold push_cycle. rewrite (bind_done _ _ _ _ _ E).
  inversion_clear Hev as [|? ? Hfn Hrest'].
  destruct (commonpath_total D) as (src & Hc & Habs).
  { rewrite HD. set_solver. }
  { intros m. rewrite HD, !elem_of_union, elem_of_singleton,
      elem_of_list_to_set, list_elem_of_fmap.
    intros [[Hm| ->]|(ev & -> & Hin)].
    - by apply Hsrc.
    - by apply dir_of_isabs.
    - apply dir_of_isabs. rewrite Forall_forall in Hrest'.
      apply Hrest'. rewrite Hrest. apply elem_of_app. by left. }
  destruct (relpath_total (getcwd env) src (push_dirRoot self)) as [rel Hr].
  { intros ->. done. }
  unfold push_fanout.
  erewrite bind_done; [|by rewrite Hc].
  erewrite bind_done; [|by rewrite Hr].
  match goal with |- context [sync_targets env args ?a ?b ?c ?d] =>
    destruct (sync_targets_completes env args a b c d
                (mkWorld (Qmax (clock w) t0 + dt) left (spawned w)
                   (trace w ++ [ELog INFO msg largs; ESleep dt])) Hrun)
      as (b' & w' & Hs) end.
  rewrite (bind_done _ _ _ _ _ Hs). unfold ret. eauto.
Qed.

(** A turn of the watcher that comes to its end has printed, last of
    all, the line of the wire protocol for the common path of its batch. *)
Lemma watch_cycle_prints (delay : Q) (w w' : World) :
  watch_cycle env delay w = (Done tt, w') ->
  exists D w1 src,
    watch_batch env delay w = (Done D, w1)
    /\ posixpath.commonpath (elements D) = inr src
    /\ last (trace w') = Some (EStdout (watcher_line src)).
Proof.
  unfold watch_cycle. intros H.
  apply bind_inv_done in H as (D & w1 & Hb & H).
  apply bind_inv_done in H as (src & w2 & Hsrc & H).
  unfold lift in Hsrc.
  destruct (posixpath.commonpath (elements D)) as [e|src'] eqn:Ec; [done|].
  injection Hsrc as -> <-.
  unfold bind, logging, print, emit in H. injection H as <-.
  exists D, w1, src. split_and!; [done|done|].
  cbn [trace]. by rewrite last_snoc.
Qed.

End Completion.

(** ** The ship's runs *)


Example executor_logs_failure_as_warning :
  rsyncTo ship_env ship_args "/root" "dest" (mkWorld 0 [] 1 [])
  = (Done false,
     mkWorld 0 [] 2
       [ERun ["/usr/bin/rsync"; "--verbose"; "--archive"; "--temp-dir";
              "/var/cache"; "--delete-delay"; "/root/"; "dest"];
        ELog WARNING ("Failed executing %s" +:+ nl +:+ "%s")
          [VStr "/usr/bin/rsync --verbose --archive --temp-dir /var/cache --delete-delay /root/ dest";
           VStr "rsync: connection unexpectedly closed"]]).
Proof. reflexivity. Qed.



Lemma commonpath_longest_shared_prefix_witness :
  let sources : gset string := {["/a/b"]} ∪ {["/a/b/c"]} ∪ {["/a/d"]} in
  sources <> ∅
  /\ (forall m, m ∈ sources -> posixpath.isabs m = true)
  /\ exists p,
      posixpath.commonpath (elements sources) = inr p
      /\ posixpath.isabs p = true
      /\ (forall m, m ∈ sources ->
                    posixpath.components p `prefix_of` posixpath.components m)
      /\ (forall q, (forall m, m ∈ sources ->
                               q `prefix_of` posixpath.components m) ->
                    q `prefix_of` posixpath.components p).
Proof.
  intros sources.
  assert (H1 : sources <> ∅).
  { intros E. assert (H : "/a/d" ∈ sources) by (unfold sources; set_solver).
    rewrite E in H. set_solver. }
  assert (H2 : forall m, m ∈ sources -> posixpath.isabs m = true).
  { intros m Hm. unfold sources in Hm.
    apply elem_of_union in Hm as [[Hm|Hm]%elem_of_union|Hm];
      apply elem_of_singleton in Hm; subst m; reflexivity. }
  split_and!; [exact H1|exact H2|].
  exact (proj1 commonpath_longest_shared_prefix sources H1 H2).
Defined.

(** A cycle on the ship that starts with an empty DirtySet: two events
    below [/root/sub] within the window, one transfer per target to the
    target's [sub]. *)
Lemma relative_fanout_witness :
  let r := push_cycle ship_env ship_args ship_push ∅ ship_world in
  exists s' w',
    r = (Done s', w')
    /\ exists D w1 src rel,
        push_batch ship_env ship_args ∅ ship_world = (Done D, w1)
        /\ posixpath.commonpath (elements D) = inr src
        /\ posixpath.relpath (getcwd ship_env) src (push_dirRoot ship_push)
           = inr rel
        /\ runs (trace w')
           = runs (trace ship_world)
               ++ map (fun tgt =>
                         rsync_cmd ship_args (cache ship_args) src
                           (if String.eqb rel "." then tgt
                            else posixpath.join tgt rel))
                      (push_targets ship_push).
Proof.
  intros r.
  assert (E : r = (Done match fst r with Done s => s | _ => ∅ end, snd r))
    by (vm_compute; reflexivity).
  eexists _, _. split; [exact E|].
  exact (proj1 (relative_fanout ship_env ship_args) _ _ _ _ _ E).
Defined.

Example relative_fanout_on_the_ship :
  runs (trace (snd (push_cycle ship_env ship_args ship_push ∅ ship_world)))
  = [["/usr/bin/rsync"; "--verbose"; "--archive"; "--temp-dir"; "/var/cache";
      "--delete-delay"; "/root/sub/"; "dest/sub"];
     ["/usr/bin/rsync"; "--verbose"; "--archive"; "--temp-dir"; "/var/cache";
      "--delete-delay"; "/root/sub/"; "shore:/d2/sub"]].
Proof. vm_compute. reflexivity. Qed.

(** The initial sync on the ship fails for the second target, so the
    DirtySet keeps the tree root; the next cycle fails again and keeps the
    root together with the directory of its events. *)
Lemma dirtyset_bookkeeping_witness :
  let r0 := push_initial ship_env ship_args ship_push ship_world in
  let r1 := push_cycle ship_env ship_args ship_push {["/root"]} ship_world in
  (exists s w',
      r0 = (Done s, w')
      /\ let ok := transfers_ok ship_env (spawned ship_world)
                     (push_cmds ship_args (push_dirRoot ship_push)
                                (fun tgt => tgt) (push_targets ship_push)) in
         (s = ∅ <-> ok = true)
         /\ (ok = false -> s = {[push_dirRoot ship_push]}))
  /\ (exists s w',
         r1 = (Done s, w')
         /\ exists D w1 src rel,
             push_batch ship_env ship_args {["/root"]} ship_world = (Done D, w1)
             /\ {["/root"]} ⊆ D
             /\ posixpath.commonpath (elements D) = inr src
             /\ posixpath.relpath (getcwd ship_env) src (push_dirRoot ship_push)
                = inr rel
             /\ let ok := transfers_ok ship_env (spawned w1)
                            (push_cmds ship_args src (push_dest rel)
                                       (push_targets ship_push)) in
                (s = ∅ <-> ok = true)
                /\ (ok = false ->
                    s = D
                    /\ forall D' w2,
                        push_batch ship_env ship_args s w' = (Done D', w2) ->
                        {["/root"]} ⊆ D')).
Proof.
  intros r0 r1.
  assert (E0 : r0 = (Done match fst r0 with Done s => s | _ => ∅ end, snd r0))
    by (vm_compute; reflexivity).
  assert (E1 : r1 = (Done match fst r1 with Done s => s | _ => ∅ end, snd r1))
    by (vm_compute; reflexivity).
  split.
  - eexists _, _. split; [exact E0|].
    exact (proj1 (dirtyset_bookkeeping ship_env ship_args ship_push
                    {["/root"]} ship_world) _ _ E0).
  - eexists _, _. split; [exact E1|].
    exact (proj2 (dirtyset_bookkeeping ship_env ship_args ship_push
                    {["/root"]} ship_world) _ _ E1).
Defined.

Example dirtyset_kept_on_the_ship :
  fst (push_initial ship_env ship_args ship_push ship_world)
  = Done ({["/root"]} : gset string)
  /\ fst (push_cycle ship_env ship_args ship_push {["/root"]} ship_world)
     = Done ({["/root"]} ∪ {["/root/sub"]} : gset string)
  /\ fst (push_cycle ship_env ship_args ship_push ∅
            (mkWorld 0 [(5, "/root/x")] 2 []))
     = Done (∅ : gset string).
Proof. vm_compute. split_and!; reflexivity. Qed.

(** A batch on the ship: the first event comes at 5 with a delay of 20, so
    the batcher sleeps 20 seconds, wakes at 25 and takes the event of 7
    with it; the event of 100 stays in the queue. *)
Example debounce_on_the_ship :
  push_batch ship_env ship_args ∅ ship_world
  = (Done (∅ ∪ {["/root/sub"]} ∪ {["/root/sub"]}),
     mkWorld (Qmax 0 5 + py_max (5 - Qmax 0 5 + 20) (1 # 10))
             [(100, "/root/x")] 0
             [ELog INFO "Sleeping for %s seconds due to %s"
                   [VFloat (py_max (5 - Qmax 0 5 + 20) (1 # 10));
                    VStr "/root/sub/a.txt"];
              ESleep (py_max (5 - Qmax 0 5 + 20) (1 # 10))])
  /\ py_max (5 - Qmax 0 5 + 20) (1 # 10) == 20.
Proof. split; [reflexivity|by vm_compute]. Qed.

(** The watcher on the ship prints [src:/root/sub] for its first batch,
    and the bridge that reads this line back does not match it. *)
Example wire_protocol_on_the_ship :
  let w' := snd (watch_cycle ship_env 20 ship_world) in
  last (trace w') = Some (EStdout (watcher_line "/root/sub"))
  /\ re.match_group1 line_pattern (watcher_line "/root/sub") = None
  /\ re.match_group1 line_pattern (":/root/sub" +:+ nl) = Some "/root/sub".
Proof. vm_compute. split_and!; reflexivity. Qed.

(** * The bridge's line format *)

Lemma string_app_cons (c : ascii) (s t : string) :
  String c s +:+ t = String c (s +:+ t).
Proof. reflexivity. Qed.

Lemma re_take_drop (n : nat) (s : string) : re.take n s +:+ re.drop n s = s.
Proof.
  revert s. induction n as [|n IH]; intros [|c s]; try done.
  cbn [re.take re.drop]. by rewrite string_app_cons, IH.
Qed.

Lemma re_take_app (p s : string) : re.take (String.length p) (p +:+ s) = p.
Proof.
  induction p as [|c p IH]; [by destruct s|].
  rewrite string_app_cons. cbn. by rewrite IH.
Qed.

Lemma re_drop_app (p s : string) : re.drop (String.length p) (p +:+ s) = s.
Proof.
  induction p as [|c p IH]; [by destruct s|].
  rewrite string_app_cons. cbn. by rewrite IH.
Qed.

Lemma run_length_dot_line (p : string) :
  has_newline p = false -> re.run_length re.Dot (p +:+ nl) = String.length p.
Proof.
  induction p as [|c p IH]; [done|]. cbn [has_newline].
  intros [Hc Hp]%orb_false_iff. rewrite string_app_cons. cbn.
  rewrite Hc. cbn. by rewrite IH.
Qed.

Lemma longest_first_top {A} (n : nat) (k : nat -> option A) (r : A) :
  k (S n) = Some r -> re.longest_first (S n) k = Some r.
Proof. intros H. cbn. by rewrite H. Qed.

Lemma longest_first_some {A} (n : nat) (k : nat -> option A) (r : A) :
  re.longest_first n k = Some r -> exists m, (1 <= m <= n)%nat /\ k m = Some r.
Proof.
  induction n as [|n IH]; cbn; [done|].
  destruct (k (S n)) as [r'|] eqn:Hk.
  - intros [= <-]. exists (S n). split; [lia|done].
  - intros H. destruct (IH H) as (m & Hm & Hr). exists m. split; [lia|done].
Qed.

Lemma take_dot_run (n : nat) (s : string) :
  (n <= re.run_length re.Dot s)%nat -> has_newline (re.take n s) = false.
Proof.
  revert s. induction n as [|n IH]; intros [|c s]; cbn; try done.
  destruct (N_of_ascii c =? 10)%N; cbn; [lia|]. intros H. apply IH. lia.
Qed.

Lemma take_space_run (n : nat) (s : string) :
  (n <= re.run_length re.Space s)%nat -> all_space (re.take n s) = true.
Proof.
  revert s. induction n as [|n IH]; intros [|c s]; try done.
  cbn [re.run_length re.take all_space].
  destruct (re.class_matches re.Space c); cbn; [|lia]. intros H. apply IH. lia.
Qed.

Lemma take_run_nonempty (cl : re.Class) (n : nat) (s : string) :
  (1 <= n <= re.run_length cl s)%nat -> re.take n s <> "".
Proof. destruct n, s; cbn; try done; lia. Qed.

Lemma all_space_app (s t : string) :
  all_space s = true -> all_space t = true -> all_space (s +:+ t) = true.
Proof.
  induction s as [|c s IH]; [done|]. rewrite string_app_cons.
  cbn [all_space]. intros [Hc Hs]%andb_true_iff Ht. rewrite Hc. cbn. auto.
Qed.

Lemma at_eol_all_space (s : string) : re.at_eol s = true -> all_space s = true.
Proof.
  unfold re.at_eol. intros [H|H]%orb_true_iff; apply String.eqb_eq in H;
    by subst s.
Qed.

(** X1. A line [":<path>\n"] whose path is not empty and holds no newline
    is matched by the bridge's pattern with the whole path, trailing
    blanks included, as its capture; the bridge logs it and puts it on
    the queue, as text when it is UTF-8 and as the raw bytes otherwise,
    and goes on with the next line. *)
Theorem bridge_delivers_colon_line (p : string) (rest : list string)
        (w : World) :
  p <> "" -> has_newline p = false ->
  re.match_group1 line_pattern (":" +:+ p +:+ nl) = Some p
  /\ read_lines ((":" +:+ p +:+ nl) :: rest) w
     = read_lines rest
         (mkWorld (clock w) (inotify w) (spawned w)
                  (trace w ++ [ELog INFO "Sending %s" [delivered p];
                               EPut (delivered p)])).
Proof.
  intros Hne Hnl.
  assert (Hm : re.match_group1 line_pattern (":" +:+ p +:+ nl) = Some p).
  { unfold re.match_group1, line_pattern.
    change (":" +:+ p +:+ nl) with (String ":" (p +:+ nl)).
    cbn [re.matches re.class_matches]. rewrite Ascii.eqb_refl.
    rewrite run_length_dot_line by done.
    destruct p as [|c p]; [done|]. cbn [String.length].
    rewrite (longest_first_top _ _ (Some (String c p))); [done|].
    change (S (String.length p)) with (String.length (String c p)).
    by rewrite re_drop_app, re_take_app. }
  split; [done|].
  cbn [read_lines]. change (":" +:+ p +:+ nl) with (String ":" (p +:+ nl)) in *.
  cbn [String.eqb]. rewrite Hm.
  unfold bind at 1 2, logging, emit. cbn [clock inotify spawned trace].
  rewrite <- app_assoc. unfold delivered, str_decode.
  by destruct (utf8_valid p).
Qed.

(** X2. The bridge delivers a path only from a line that is a colon, the
    path, and white space up to the end: when the pattern matches with
    capture [g], the line is [":" ++ g ++ ws] with [g] not empty and free
    of newlines and [ws] a non-empty run of white space. A line that
    starts with anything but a colon is never delivered. *)
Theorem bridge_delivers_only_colon_lines (line g : string) :
  re.match_group1 line_pattern line = Some g ->
  exists ws,
    line = ":" +:+ g +:+ ws
    /\ g <> "" /\ has_newline g = false
    /\ ws <> "" /\ all_space ws = true.
Proof.
  unfold re.match_group1, line_pattern. cbn [re.matches].
  destruct line as [|c s]; [done|]. cbn [re.class_matches].
  destruct (Ascii.eqb_spec ":" c) as [<-|_]; [|done].
  destruct (re.longest_first _ _) as [[g'|]|] eqn:H; try done.
  intros [= ->].
  apply longest_first_some in H as (n & Hn & H).
  apply longest_first_some in H as (m & Hm & H).
  destruct (re.at_eol (re.drop m (re.drop n s))) eqn:Heol; [|done].
  injection H as <-.
  exists (re.drop n s). split_and!.
  - by rewrite string_app_cons, re_take_drop.
  - by eapply take_run_nonempty.
  - apply take_dot_run. lia.
  - rewrite <- (re_take_drop m (re.drop n s)).
    pose proof (take_run_nonempty _ _ _ Hm).
    by destruct (re.take m (re.drop n s)).
  - rewrite <- (re_take_drop m (re.drop n s)).
    apply all_space_app; [apply take_space_run; lia|by apply at_eol_all_space].
Qed.

Lemma bridge_delivers_colon_line_witness :
  "/data/a b " <> "" /\ has_newline "/data/a b " = false
  /\ re.match_group1 line_pattern (":" +:+ "/data/a b " +:+ nl) = Some "/data/a b "
  /\ read_lines ((":" +:+ "/data/a b " +:+ nl) :: []) ship_world
     = read_lines []
         (mkWorld (clock ship_world) (inotify ship_world) (spawned ship_world)
                  (trace ship_world
                     ++ [ELog INFO "Sending %s" [delivered "/data/a b "];
                         EPut (delivered "/data/a b ")])).
Proof.
  assert (H1 : "/data/a b " <> "") by discriminate.
  assert (H2 : has_newline "/data/a b " = false) by reflexivity.
  split_and!; [exact H1|exact H2|..];
    apply (bridge_delivers_colon_line "/data/a b " [] ship_world H1 H2).
Defined.

Lemma bridge_delivers_only_colon_lines_witness :
  re.match_group1 line_pattern (":/data/x" +:+ nl) = Some "/data/x"
  /\ exists ws,
      ":/data/x" +:+ nl = ":" +:+ "/data/x" +:+ ws
      /\ "/data/x" <> "" /\ has_newline "/data/x" = false
      /\ ws <> "" /\ all_space ws = true.
Proof.
  assert (H : re.match_group1 line_pattern (":/data/x" +:+ nl) = Some "/data/x")
    by reflexivity.
  split; [exact H|].
  exact (bridge_delivers_only_colon_lines _ _ H).
Defined.

(** * The bridge: faults *)

Section BridgeFaults.

Variable env : Env.
Variable args : Args.

Lemma bridge_loop_launch_fault (cmd : list string) (k left : nat) (cnt : Z)
      (w : World) (e : Exn) :
  (0 <= retrySleep args)%Z ->
  (k < left)%nat ->
  (forall i, (i < k)%nat ->
             exists lines, popen_outcome env (spawned w + i) cmd = inr lines) ->
  popen_outcome env (spawned w + k) cmd = inl e ->
  exists w',
    bridge_loop env args cmd cnt left w = (Raised e, w')
    /\ backoff_view (trace w')
       = backoff_view (trace w)
           ++ mjoin (replicate k
                       [Connect; Backoff (inject_Z (retrySleep args)); Sentinel])
           ++ [Connect]
    /\ last (trace w') = Some (EPopen cmd).
Proof.
  intros Hrs. revert left cnt w.
  induction k as [|k IH]; intros left cnt w Hk Hgood Hbad;
    (destruct left as [|left]; [lia|]); cbn [bridge_loop].
  - rewrite Nat.add_0_r in Hbad.
    unfold bind at 1, popen. rewrite Hbad. eexists. split; [done|].
    cbn [trace]. rewrite backoff_view_app, last_snoc. done.
  - destruct (Hgood 0%nat ltac:(lia)) as [lines Hl].
    rewrite Nat.add_0_r in Hl.
    unfold bind at 1, popen. rewrite Hl.
    unfold bind at 1.
    match goal with |- context [read_lines lines ?w1] =>
      destruct (read_lines_view lines w1) as (es & -> & Hes) end.
    cbn [clock inotify spawned trace].
    unfold bind at 1, logging, emit. cbn [clock inotify spawned trace].
    unfold bind at 1, time_sleep. cbn [clock inotify spawned trace].
    assert (Qle_bool 0 (inject_Z (retrySleep args)) = true) as ->.
    { apply Qle_bool_iff. change 0%Q with (inject_Z 0). by rewrite <- Zle_Qle. }
    unfold bind at 1, time_time. cbn [clock inotify spawned trace].
    unfold bind at 1. cbn [clock inotify spawned trace].
    match goal with |- context [bridge_loop env args cmd ?c left ?w1] =>
      destruct (IH left c w1) as (w' & -> & Hv & Hlast) end.
    + lia.
    + intros i Hi. cbn [spawned].
      replace (S (spawned w) + i)%nat with (spawned w + S i)%nat by lia.
      apply Hgood. lia.
    + cbn [spawned].
      by replace (S (spawned w) + k)%nat with (spawned w + S k)%nat by lia.
    + exists w'. split; [done|]. split; [|done].
      cbn [trace] in Hv. rewrite Hv, !backoff_view_app, Hes. cbn.
      by rewrite <- !app_assoc.
Qed.

(** X3. A launch of the remote watcher that fails is not retried: when
    the first [k] sessions have run and closed and the next launch
    raises, with attempts still left, [MonitorRemote.runIt] ends with
    that fault at once. It has then connected, slept and put a sentinel
    [k] times and tried to connect once more; the failed launch is the
    last thing it did, with no sentinel and no "Exiting" record after
    it. *)
Theorem bridge_launch_fault_escapes (hostname directory : string) (k : nat)
        (w : World) (e : Exn) :
  (0 <= retrySleep args)%Z ->
  (Z.of_nat k < retries args)%Z ->
  (forall i, (i < k)%nat ->
             exists lines,
               popen_outcome env (spawned w + i)
                             (bridge_cmd env args hostname directory)
               = inr lines) ->
  popen_outcome env (spawned w + k) (bridge_cmd env args hostname directory)
  = inl e ->
  exists w',
    MonitorRemote_runIt env args hostname directory w = (Raised e, w')
    /\ backoff_view (trace w')
       = backoff_view (trace w)
           ++ mjoin (replicate k
                       [Connect; Backoff (inject_Z (retrySleep args)); Sentinel])
           ++ [Connect]
    /\ last (trace w')
       = Some (EPopen (bridge_cmd env args hostname directory)).
Proof.
  intros Hrs Hk Hgood Hbad. unfold MonitorRemote_runIt.
  unfold bind at 1, logging, emit.
  unfold bind at 1.
  match goal with |- context [bridge_loop env args ?cmd ?c ?n ?w1] =>
    destruct (bridge_loop_launch_fault cmd k n c w1 e Hrs) as (w' & -> & Hv & Hl)
  end; [lia|done|done|].
  exists w'. split; [done|]. split; [|done].
  cbn [trace] in Hv. by rewrite Hv, backoff_view_app, app_nil_r.
Qed.

(** X4. With a negative [--retrySleep] the bridge ends at the first
    closure of the channel: [time.sleep] refuses the negative length, the
    fault leaves [MonitorRemote.runIt], and neither a sleep nor a
    sentinel follows the one connection. *)
Theorem bridge_negative_backoff_faults (hostname directory : string)
        (w : World) (lines : list string) :
  (retrySleep args < 0)%Z ->
  (0 < retries args)%Z ->
  popen_outcome env (spawned w) (bridge_cmd env args hostname directory)
  = inr lines ->
  exists w',
    MonitorRemote_runIt env args hostname directory w
    = (Raised (ValueError "sleep length must be non-negative"), w')
    /\ backoff_view (trace w') = backoff_view (trace w) ++ [Connect]
    /\ spawned w' = S (spawned w).
Proof.
  intros Hrs Hr Hl. unfold MonitorRemote_runIt.
  unfold bind at 1, logging, emit.
  destruct (Z.to_nat (retries args)) as [|left] eqn:Hn; [lia|].
  cbn [bridge_loop].
  unfold bind at 1. unfold bind at 1, popen. cbn [clock inotify spawned trace].
  rewrite Hl.
  unfold bind at 1.
  match goal with |- context [read_lines lines ?w1] =>
    destruct (read_lines_view lines w1) as (es & -> & Hes) end.
  cbn [clock inotify spawned trace].
  unfold bind at 1, logging, emit. cbn [clock inotify spawned trace].
  unfold bind at 1, time_sleep. cbn [clock inotify spawned trace].
  assert (Qle_bool 0 (inject_Z (retrySleep args)) = false) as ->.
  { apply not_true_iff_false. rewrite Qle_bool_iff.
    change 0%Q with (inject_Z 0). rewrite <- Zle_Qle. lia. }
  eexists. split; [done|]. cbn [trace spawned]. split; [|done].
  rewrite !backoff_view_app, Hes. cbn. by rewrite !app_nil_r.
Qed.

End BridgeFaults.

Lemma bridge_launch_fault_escapes_witness :
  let cmd := bridge_cmd harbour_env ship_args "shore" "/data" in
  (0 <= retrySleep ship_args)%Z
  /\ (Z.of_nat 1 < retries ship_args)%Z
  /\ (forall i, (i < 1)%nat ->
                exists lines,
                  popen_outcome harbour_env (spawned ship_world + i) cmd
                  = inr lines)
  /\ popen_outcome harbour_env (spawned ship_world + 1) cmd
     = inl (OSError "ssh: No such file or directory")
  /\ exists w',
      MonitorRemote_runIt harbour_env ship_args "shore" "/data" ship_world
      = (Raised (OSError "ssh: No such file or directory"), w')
      /\ backoff_view (trace w')
         = backoff_view (trace ship_world)
             ++ mjoin (replicate 1
                         [Connect; Backoff (inject_Z (retrySleep ship_args));
                          Sentinel])
             ++ [Connect]
      /\ last (trace w') = Some (EPopen cmd).
Proof.
  intros cmd.
  assert (H1 : (0 <= retrySleep ship_args)%Z) by (cbn; lia).
  assert (H2 : (Z.of_nat 1 < retries ship_args)%Z) by (cbn; lia).
  assert (H3 : forall i, (i < 1)%nat ->
                 exists lines,
                   popen_outcome harbour_env (spawned ship_world + i) cmd
                   = inr lines).
  { intros i Hi. assert (i = 0%nat) as -> by lia. by eexists. }
  assert (H4 : popen_outcome harbour_env (spawned ship_world + 1) cmd
               = inl (OSError "ssh: No such file or directory"))
    by reflexivity.
  split_and!; [exact H1|exact H2|exact H3|exact H4|].
  exact (bridge_launch_fault_escapes harbour_env ship_args "shore" "/data" 1
           ship_world _ H1 H2 H3 H4).
Defined.

Lemma bridge_negative_backoff_faults_witness :
  (retrySleep hasty_args < 0)%Z
  /\ (0 < retries hasty_args)%Z
  /\ popen_outcome ship_env (spawned ship_world)
                   (bridge_cmd ship_env hasty_args "shore" "/data") = inr []
  /\ exists w',
      MonitorRemote_runIt ship_env hasty_args "shore" "/data" ship_world
      = (Raised (ValueError "sleep length must be non-negative"), w')
      /\ backoff_view (trace w') = backoff_view (trace ship_world) ++ [Connect]
      /\ spawned w' = S (spawned ship_world).
Proof.
  assert (H1 : (retrySleep hasty_args < 0)%Z) by (cbn; lia).
  assert (H2 : (0 < retries hasty_args)%Z) by (cbn; lia).
  assert (H3 : popen_outcome ship_env (spawned ship_world)
                 (bridge_cmd ship_env hasty_args "shore" "/data") = inr [])
    by reflexivity.
  split_and!; [exact H1|exact H2|exact H3|].
  exact (bridge_negative_backoff_faults ship_env hasty_args "shore" "/data"
           ship_world [] H1 H2 H3).
Defined.

(** * The pull coordinator: what it transfers, what escapes *)

Lemma split_colon_none (s : string) :
  has_colon s = false -> split_colon s = None.
Proof.
  induction s as [|c s IH]; [done|]. cbn.
  destruct (Ascii.eqb c ":"); [done|]. cbn. intros H. by rewrite IH.
Qed.

Lemma split_colon_some (s : string) :
  has_colon s = true ->
  exists h d, split_colon s = Some (h, d)
              /\ s = h +:+ ":" +:+ d /\ has_colon h = false.
Proof.
  induction s as [|c s IH]; [done|]. cbn.
  destruct (Ascii.eqb_spec c ":") as [->|Hc]; cbn.
  - intros _. by exists "", s.
  - intros H. destruct (IH H) as (h & d & -> & E & Hh).
    exists (String c h), d. split_and!; [done|by rewrite E|].
    cbn. rewrite Hh. by rewrite (proj2 (Ascii.eqb_neq c ":")).
Qed.

(** Python's [~] of a bool is never zero. *)
Lemma truthy_invert_bool (b : bool) : truthy (invert_bool b) = true.
Proof. by destruct b. Qed.

Section PullTransfers.

Variable env : Env.
Variable args : Args.

Lemma pull_step_runs (hostname directory tgt : string) (v : PyVal) (w : World) :
  runs (trace (snd (pull_step env args hostname directory tgt v w)))
  = runs (trace w)
      ++ match pull_cmd env args hostname directory tgt v with
         | Some c => [c]
         | None => []
         end.
Proof.
  destruct v as [|s|b|x|n|l];
    try (unfold pull_step; rewrite truthy_invert_bool;
         unfold pull_except, logging, emit; cbn; by rewrite runs_app).
  unfold pull_cmd. destruct (utf8_valid b) eqn:Hb.
  - by apply pull_bytes_dispatch.
  - unfold pull_step. rewrite truthy_invert_bool. cbn [str_decode].
    rewrite Hb. unfold pull_except, logging, emit. cbn. by rewrite runs_app.
Qed.

Lemma pull_loop_runs (hostname directory tgt : string) (ns : list PyVal)
      (w : World) :
  runs (trace (snd (pull_loop env args hostname directory tgt ns w)))
  = runs (trace w) ++ omap (pull_cmd env args hostname directory tgt) ns.
Proof.
  revert w. induction ns as [|v ns IH]; intros w; cbn [pull_loop omap].
  - cbn. by rewrite app_nil_r.
  - destruct (pull_step_done env args hostname directory tgt v w) as [w1 H1].
    rewrite (bind_done _ _ _ _ _ H1), IH.
    pose proof (pull_step_runs hostname directory tgt v w) as Hr.
    rewrite H1 in Hr. cbn [snd] in Hr. rewrite Hr.
    rewrite <- app_assoc. f_equal. cbn.
    by destruct (pull_cmd env args hostname directory tgt v).
Qed.

(** X5. A [pullFrom] source without a colon cannot be taken apart into
    host and directory: [PullFrom.runIt] ends with a [ValueError] before
    it has logged or transferred anything. *)
Theorem pull_source_without_colon_faults (dirname src : string)
        (ns : list PyVal) (w : World) :
  has_colon src = false ->
  PullFrom_runIt env args dirname src ns w
  = (Raised (ValueError "not enough values to unpack"), w).
Proof.
  intros H. unfold PullFrom_runIt. by rewrite (split_colon_none _ H).
Qed.

(** X6. The source is split at its first colon, and host and directory
    put together again give the source: when the initial sync has run to
    its end, a notification [b"."] makes the pull coordinator run the
    very command of the initial sync once more, from the configured
    source to the root of the local tree. *)
Theorem pull_dot_repeats_initial_sync (dirname src : string) (w : World)
        (sp : CompletedProcess) :
  let cmd := rsync_cmd args (abspath env (expanduser env (cache args)))
                       src (abspath env (expanduser env dirname)) in
  has_colon src = true ->
  run_outcome env (spawned w) cmd = inr sp ->
  runs (trace (snd (PullFrom_runIt env args dirname src [VBytes "."] w)))
  = runs (trace w) ++ [cmd; cmd].
Proof.
  intros cmd Hc Hrun. unfold PullFrom_runIt.
  destruct (split_colon_some _ Hc) as (h & d & -> & E & _).
  unfold bind at 1, logging, emit.
  unfold bind at 1, rsyncFrom.
  match goal with |- context [rsync_with env args ?t ?s ?g ?w1] =>
    destruct (rsync_with_completed env args t s g w1 sp Hrun)
      as (lvl & msg & largs & -> & _) end.
  rewrite pull_loop_runs. cbn [trace omap pull_cmd utf8_valid byte_in].
  rewrite !runs_app. cbn. rewrite <- E, app_nil_r, <- app_assoc. done.
Qed.

(** X7. After the initial sync the pull coordinator starts one transfer
    for every value of its queue that is bytes and decodes as UTF-8, in
    the order of the queue, and none for any other value: text, bytes
    that do not decode and sentinels are passed over, and whether a
    transfer succeeds, fails or cannot be started changes nothing for the
    ones after it. *)
Theorem pull_loop_transfers (hostname directory tgt : string)
        (ns : list PyVal) (w : World) :
  runs (trace (snd (pull_loop env args hostname directory tgt ns w)))
  = runs (trace w) ++ omap (pull_cmd env args hostname directory tgt) ns
  /\ (forall v, inert v = true ->
                pull_cmd env args hostname directory tgt v = None)
  /\ (forall b, inert (VBytes b) = false ->
                pull_cmd env args hostname directory tgt (VBytes b) <> None).
Proof.
  split_and!.
  - apply pull_loop_runs.
  - intros [|s|b|x|n|l]; try done. cbn. by destruct (utf8_valid b).
  - intros b. cbn. by destruct (utf8_valid b).
Qed.

(** X8. The initial sync of [PullFrom.runIt] stands outside the [try]:
    when the transfer tool cannot be started for it, the fault leaves the
    coordinator, which has then logged its start and tried that one
    command, and no notification is ever handled. *)
Theorem pull_initial_fault_escapes (dirname src : string) (ns : list PyVal)
        (w : World) (e : Exn) :
  let tgt := abspath env (expanduser env dirname) in
  let cmd := rsync_cmd args (abspath env (expanduser env (cache args)))
                       src tgt in
  has_colon src = true ->
  run_outcome env (spawned w) cmd = inl e ->
  PullFrom_runIt env args dirname src ns w
  = (Raised e,
     mkWorld (clock w) (inotify w) (S (spawned w))
             (trace w
                ++ [ELog INFO "Starting tgt %s src %s with delay %s"
                         [VStr tgt; VStr src; VFloat (pullDelay args)];
                    ERun cmd])).
Proof.
  intros tgt cmd Hc Hrun. unfold PullFrom_runIt.
  destruct (split_colon_some _ Hc) as (h & d & -> & _).
  unfold bind at 1, logging, emit.
  unfold bind at 1, rsyncFrom.
  rewrite (rsync_with_raised env args _ _ _ _ e) by done.
  cbn [clock inotify spawned trace]. by rewrite <- app_assoc.
Qed.

End PullTransfers.

Lemma pull_source_without_colon_faults_witness :
  has_colon "shore-data" = false
  /\ PullFrom_runIt ship_env ship_args "~/data" "shore-data" [VBytes "."]
                    ship_world
     = (Raised (ValueError "not enough values to unpack"), ship_world).
Proof.
  assert (H : has_colon "shore-data" = false) by reflexivity.
  split; [exact H|].
  exact (pull_source_without_colon_faults ship_env ship_args "~/data"
           "shore-data" [VBytes "."] ship_world H).
Defined.

Lemma pull_dot_repeats_initial_sync_witness :
  let cmd := rsync_cmd ship_args
               (abspath ship_env (expanduser ship_env (cache ship_args)))
               "shore:/data" (abspath ship_env (expanduser ship_env "/root")) in
  has_colon "shore:/data" = true
  /\ run_outcome ship_env (spawned ship_world) cmd = inr (mkCompleted 0 "")
  /\ runs (trace (snd (PullFrom_runIt ship_env ship_args "/root" "shore:/data"
                         [VBytes "."] ship_world)))
     = runs (trace ship_world) ++ [cmd; cmd].
Proof.
  intros cmd.
  assert (H1 : has_colon "shore:/data" = true) by reflexivity.
  assert (H2 : run_outcome ship_env (spawned ship_world) cmd
               = inr (mkCompleted 0 "")) by reflexivity.
  split_and!; [exact H1|exact H2|].
  exact (pull_dot_repeats_initial_sync ship_env ship_args "/root" "shore:/data"
           ship_world _ H1 H2).
Defined.

Lemma pull_initial_fault_escapes_witness :
  let tgt := abspath harbour_env (expanduser harbour_env "/root") in
  let cmd := rsync_cmd ship_args
               (abspath harbour_env (expanduser harbour_env (cache ship_args)))
               "shore:/data" tgt in
  has_colon "shore:/data" = true
  /\ run_outcome harbour_env (spawned harbour_world) cmd
     = inl (OSError "rsync: No such file or directory")
  /\ PullFrom_runIt harbour_env ship_args "/root" "shore:/data" [VBytes "."]
                    harbour_world
     = (Raised (OSError "rsync: No such file or directory"),
        mkWorld (clock harbour_world) (inotify harbour_world)
                (S (spawned harbour_world))
                (trace harbour_world
                   ++ [ELog INFO "Starting tgt %s src %s with delay %s"
                            [VStr tgt; VStr "shore:/data";
                             VFloat (pullDelay ship_args)];
                       ERun cmd])).
Proof.
  intros tgt cmd.
  assert (H1 : has_colon "shore:/data" = true) by reflexivity.
  assert (H2 : run_outcome harbour_env (spawned harbour_world) cmd
               = inl (OSError "rsync: No such file or directory"))
    by reflexivity.
  split_and!; [exact H1|exact H2|].
  exact (pull_initial_fault_escapes harbour_env ship_args "/root" "shore:/data"
           [VBytes "."] harbour_world _ H1 H2).
Defined.

(** * Bridge and pull coordinator together *)

Lemma puts_app tr1 tr2 : puts (tr1 ++ tr2) = puts tr1 ++ puts tr2.
Proof. apply omap_app. Qed.

Lemma delivered_inert (g : string) : inert (delivered g) = true.
Proof. unfold delivered. by destruct (utf8_valid g) eqn:H; cbn; rewrite ?H. Qed.

Section BridgeToPull.

Variable env : Env.
Variable args : Args.

Lemma read_lines_inert (lines : list string) (w : World) :
  exists es,
    read_lines lines w
    = (Done tt, mkWorld (clock w) (inotify w) (spawned w) (trace w ++ es))
    /\ Forall (fun v => inert v = true) (puts es).
Proof.
  revert w. induction lines as [|line rest IH]; intros w; cbn [read_lines].
  - exists []. split; [by rewrite app_nil_r; destruct w|constructor].
  - destruct (String.eqb line "").
    { exists []. split; [by rewrite app_nil_r; destruct w|constructor]. }
    destruct (re.match_group1 line_pattern line) as [g|].
    + unfold bind, logging, emit.
      match goal with |- context [read_lines rest ?w1] =>
        destruct (IH w1) as (es & -> & Hes) end.
      cbn [clock inotify spawned trace]. eexists. split.
      * by rewrite <- !app_assoc.
      * rewrite !puts_app. cbn. constructor; [|done].
        fold (delivered g). unfold str_decode.
        pose proof (delivered_inert g) as Hi. unfold delivered in Hi.
        by destruct (utf8_valid g).
    + unfold bind, logging, emit.
      match goal with |- context [read_lines rest ?w1] =>
        destruct (IH w1) as (es & -> & Hes) end.
      cbn [clock inotify spawned trace]. eexists. split.
      * by rewrite <- !app_assoc.
      * by rewrite !puts_app.
Qed.

Lemma bridge_loop_inert (cmd : list string) (left : nat) (cnt : Z) (w : World) :
  exists es,
    trace (snd (bridge_loop env args cmd cnt left w)) = trace w ++ es
    /\ Forall (fun v => inert v = true) (puts es).
Proof.
  revert cnt w. induction left as [|left IH]; intros cnt w; cbn [bridge_loop].
  - exists []. split; [by rewrite app_nil_r|constructor].
  - unfold bind at 1, popen.
    destruct (popen_outcome env (spawned w) cmd) as [e|lines].
    { exists [EPopen cmd]. split; [done|constructor]. }
    unfold bind at 1.
    match goal with |- context [read_lines lines ?w1] =>
      destruct (read_lines_inert lines w1) as (es & -> & Hes) end.
    cbn [clock inotify spawned trace].
    unfold bind at 1, logging, emit. cbn [clock inotify spawned trace].
    unfold bind at 1, time_sleep. cbn [clock inotify spawned trace].
    destruct (Qle_bool 0 (inject_Z (retrySleep args))).
    + unfold bind at 1, time_time. cbn [clock inotify spawned trace].
      unfold bind at 1. cbn [clock inotify spawned trace].
      match goal with |- context [bridge_loop env args cmd ?c left ?w1] =>
        destruct (IH c w1) as (es' & -> & Hes') end.
      cbn [trace]. eexists. split; [by rewrite <- !app_assoc|].
      rewrite !puts_app. cbn. rewrite Forall_app. split; [done|].
      by constructor.
    + cbn [snd trace]. eexists. split; [by rewrite <- !app_assoc|].
      rewrite !puts_app. cbn. by rewrite app_nil_r.
Qed.

Lemma pull_step_inert (hostname directory tgt : string) (v : PyVal)
      (w : World) :
  inert v = true ->
  pull_step env args hostname directory tgt v w
  = (Done tt,
     mkWorld (clock w) (inotify w) (spawned w)
             (trace w ++ [ELog ERROR "Unable to convert %s to str" [v]])).
Proof.
  intros Hv. unfold pull_step. rewrite truthy_invert_bool.
  destruct v as [|s|b|x|n|l]; try done.
  cbn in Hv. apply negb_true_iff in Hv. cbn [str_decode]. by rewrite Hv.
Qed.

Lemma pull_loop_inert (hostname directory tgt : string) (ns : list PyVal)
      (w : World) :
  Forall (fun v => inert v = true) ns ->
  pull_loop env args hostname directory tgt ns w
  = (Done tt,
     mkWorld (clock w) (inotify w) (spawned w)
             (trace w
                ++ map (fun v => ELog ERROR "Unable to convert %s to str" [v])
                       ns)).
Proof.
  intros H. revert w. induction H as [|v ns Hv _ IH]; intros w; cbn.
  - rewrite app_nil_r. by destruct w.
  - rewrite (bind_done _ _ _ _ _ (pull_step_inert _ _ _ v w Hv)), IH.
    cbn [clock inotify spawned trace]. by rewrite <- app_assoc.
Qed.

(** X9. Nothing the bridge puts on its queue makes the pull coordinator
    transfer anything. Whatever the remote side writes, and however the
    sessions end, the values [MonitorRemote.runIt] puts are text (a path
    that decoded), bytes that do not decode, or sentinels; the loop of
    [PullFrom.runIt] only logs each of the three as a failed conversion,
    so that fed with the bridge's output it starts no sub-process at
    all. *)
Theorem bridge_output_starts_no_transfer (hostname directory tgt : string)
        (w : World) :
  exists new,
    puts (trace (snd (MonitorRemote_runIt env args hostname directory w)))
    = puts (trace w) ++ new
    /\ forall w2,
        pull_loop env args hostname directory tgt new w2
        = (Done tt,
           mkWorld (clock w2) (inotify w2) (spawned w2)
                   (trace w2
                      ++ map (fun v =>
                                ELog ERROR "Unable to convert %s to str" [v])
                             new)).
Proof.
  unfold MonitorRemote_runIt.
  unfold bind at 1, logging, emit. unfold bind at 1.
  match goal with |- context [bridge_loop env args ?cmd ?c ?n ?w1] =>
    destruct (bridge_loop_inert cmd n c w1) as (es & Ht & Hes);
    destruct (bridge_loop env args cmd c n w1) as [[[]|e|] w'] end;
    cbn [snd trace] in *; rewrite Ht, !puts_app; cbn;
    rewrite ?app_nil_r; exists (puts es);
    (split; [done|]); intros w2; by apply pull_loop_inert.
Qed.

End BridgeToPull.

(** * The push coordinator: faults and counts *)

Section PushFaults.

Variable env : Env.
Variable args : Args.

Lemma sync_targets_fault (src : string) (dest : string -> string)
      (pre : list string) (tgt : string) (post : list string) (q : bool)
      (w : World) (e : Exn) :
  (forall i t, pre !! i = Some t ->
               exists sp, run_outcome env (spawned w + i)
                            (rsync_cmd args (cache args) src (dest t)) = inr sp) ->
  run_outcome env (spawned w + length pre)
              (rsync_cmd args (cache args) src (dest tgt)) = inl e ->
  exists w',
    sync_targets env args src dest (pre ++ tgt :: post) q w = (Raised e, w')
    /\ runs (trace w')
       = runs (trace w) ++ push_cmds args src dest (pre ++ [tgt]).
Proof.
  revert q w. induction pre as [|t pre IH]; intros q w Hgood Hbad;
    cbn [app sync_targets length].
  - rewrite Nat.add_0_r in Hbad. unfold bind at 1, rsyncTo.
    rewrite (rsync_with_raised _ _ _ _ _ _ _ Hbad).
    eexists. split; [done|]. cbn [trace]. by rewrite runs_app.
  - destruct (Hgood 0%nat t eq_refl) as [sp Hsp]. rewrite Nat.add_0_r in Hsp.
    unfold bind at 1, rsyncTo.
    destruct (rsync_with_completed _ _ _ _ _ _ _ Hsp)
      as (lvl & msg & largs & -> & _ & _).
    match goal with |- context [sync_targets env args src dest _ ?q1 ?w1] =>
      destruct (IH q1 w1) as (w' & -> & Hr) end.
    + intros i t' Hi. cbn [spawned].
      replace (S (spawned w) + i)%nat with (spawned w + S i)%nat by lia.
      by apply Hgood.
    + cbn [spawned].
      by replace (S (spawned w) + length pre)%nat
        with (spawned w + S (length pre))%nat by lia.
    + exists w'. split; [done|]. cbn [trace] in Hr.
      rewrite Hr, runs_app. cbn. by rewrite <- app_assoc.
Qed.

(** X10. The push coordinator has no handler around its transfers. When
    the transfer tool cannot be started for one target, the targets
    before it having been served, the fault leaves [PushTo.runIt]: in the
    initial sync, whatever number of turns was to follow, and in a steady
    cycle alike. The targets after the failing one are not attempted. *)
Theorem push_fault_escapes (self : PushTo) (pre : list string) (tgt : string)
        (post : list string) (e : Exn) :
  push_targets self = pre ++ tgt :: post ->
  (forall (turns : nat) (w : World),
      (forall i t, pre !! i = Some t ->
                   exists sp, run_outcome env (spawned w + i)
                                (rsync_cmd args (cache args)
                                           (push_dirRoot self) t) = inr sp) ->
      run_outcome env (spawned w + length pre)
                  (rsync_cmd args (cache args) (push_dirRoot self) tgt)
      = inl e ->
      exists w',
        PushTo_runIt env args self turns w = (Raised e, w')
        /\ runs (trace w')
           = runs (trace w)
               ++ push_cmds args (push_dirRoot self) (fun t => t)
                            (pre ++ [tgt]))
  /\ (forall (sources D : gset string) (w w1 : World) (src rel : string),
         push_batch env args sources w = (Done D, w1) ->
         posixpath.commonpath (elements D) = inr src ->
         posixpath.relpath (getcwd env) src (push_dirRoot self) = inr rel ->
         (forall i t, pre !! i = Some t ->
                      exists sp, run_outcome env (spawned w1 + i)
                                   (rsync_cmd args (cache args) src
                                              (push_dest rel t)) = inr sp) ->
         run_outcome env (spawned w1 + length pre)
                     (rsync_cmd args (cache args) src (push_dest rel tgt))
         = inl e ->
         exists w',
           push_cycle env args self sources w = (Raised e, w')
           /\ runs (trace w')
              = runs (trace w)
                  ++ push_cmds args src (push_dest rel) (pre ++ [tgt])).
Proof.
  intros Ht. split.
  - intros turns w Hgood Hbad. unfold PushTo_runIt, push_initial.
    unfold bind at 1. unfold bind at 1, logging, emit.
    unfold bind at 1. rewrite Ht.
    match goal with |- context [sync_targets env args ?s ?d _ ?q ?w1] =>
      destruct (sync_targets_fault s d pre tgt post q w1 e Hgood Hbad)
        as (w' & -> & Hr) end.
    exists w'. split; [done|]. cbn [trace] in Hr.
    by rewrite Hr, runs_app, app_nil_r.
  - intros sources D w w1 src rel Hb Hc Hr Hgood Hbad.
    unfold push_cycle. rewrite (bind_done _ _ _ _ _ Hb).
    unfold push_fanout.
    erewrite bind_done; [|by rewrite Hc].
    erewrite bind_done; [|by rewrite Hr].
    unfold bind at 1. rewrite Ht.
    destruct (sync_targets_fault src (push_dest rel) pre tgt post true w1 e
                Hgood Hbad) as (w' & -> & Hruns).
    exists w'. split; [done|].
    destruct (push_batch_done _ _ _ _ _ _ Hb) as (_ & _ & _ & es & Htr & Hes).
    by rewrite Hruns, Htr, runs_app, Hes, app_nil_r.
Qed.


(** X11. However many events a batch takes together, a push cycle runs
    the transfer tool once per target: a run of [PushTo.runIt] that has
    come through the initial sync and [turns] steady cycles has started
    [(turns + 1) * len(targets)] transfers. *)
Theorem push_transfers_per_cycle (self : PushTo) (turns : nat)
        (s : gset string) (w w' : World) :
  PushTo_runIt env args self turns w = (Done s, w') ->
  length (runs (trace w'))
  = (length (runs (trace w)) + S turns * length (push_targets self))%nat.
Proof.
  unfold PushTo_runIt. intros H.
  apply bind_inv_done in H as (s0 & w0 & Hi & Hl).
  assert (H0 : length (runs (trace w0))
               = (length (runs (trace w)) + length (push_targets self))%nat).
  { unfold push_initial in Hi.
    apply bind_inv_done in Hi as ([] & wl & Hlog & Hi).
    apply bind_inv_done in Hi as (b & w1 & Hsync & Hi).
    unfold logging, emit in Hlog. injection Hlog as <-.
    injection Hi as _ <-.
    apply sync_targets_done in Hsync as (_ & -> & _). cbn [trace].
    rewrite runs_app, app_nil_r, length_app. unfold push_cmds.
    by rewrite length_map. }
  rewrite Nat.mul_succ_l, (Nat.add_comm _ (length (push_targets self))),
    Nat.add_assoc, <- H0.
  clear H0 Hi. revert s0 w0 Hl.
  induction turns as [|n IH]; intros s0 w0 Hl; cbn [push_loop] in Hl.
  - injection Hl as _ <-. lia.
  - apply bind_inv_done in Hl as (s1 & w1 & Hc & Hl).
    apply IH in Hl. rewrite Hl.
    unfold push_cycle in Hc.
    apply bind_inv_done in Hc as (D & wb & Hb & Hf).
    destruct (push_batch_done _ _ _ _ _ _ Hb) as (_ & _ & _ & es & Htr & Hes).
    apply push_fanout_done in Hf as (src & rel & _ & _ & Hruns & _).
    rewrite Hruns, Htr, runs_app, Hes, app_nil_r, length_app.
    unfold push_cmds. rewrite length_map. lia.
Qed.

End PushFaults.

Section PushRuns.

Variable env : Env.
Variable args : Args.





End PushRuns.


Lemma push_transfers_per_cycle_witness :
  let r := PushTo_runIt ship_env ship_args ship_push 2 ship_world in
  exists s w',
    r = (Done s, w')
    /\ length (runs (trace w'))
       = (length (runs (trace ship_world))
          + 3 * length (push_targets ship_push))%nat.
Proof.
  intros r.
  assert (E : r = (Done match fst r with Done s => s | _ => ∅ end, snd r))
    by (vm_compute; reflexivity).
  eexists _, _. split; [exact E|].
  exact (push_transfers_per_cycle ship_env ship_args ship_push 2 _ _ _ E).
Defined.

Lemma push_fault_escapes_witness :
  let e := OSError "rsync: No such file or directory" in
  push_targets ship_push = ["dest"] ++ "shore:/d2" :: []
  /\ (exists w',
         PushTo_runIt harbour_env ship_args ship_push 3 ship_world
         = (Raised e, w')
         /\ runs (trace w')
            = runs (trace ship_world)
                ++ push_cmds ship_args (push_dirRoot ship_push) (fun t => t)
                             (["dest"] ++ ["shore:/d2"]))
  /\ (exists w',
         push_cycle harbour_env ship_args ship_push ∅ ship_world
         = (Raised e, w')
         /\ runs (trace w')
            = runs (trace ship_world)
                ++ push_cmds ship_args "/root" (push_dest ".")
                             (["dest"] ++ ["shore:/d2"])).
Proof.
  intros e.
  assert (Ht : push_targets ship_push = ["dest"] ++ "shore:/d2" :: [])
    by reflexivity.
  pose proof (push_fault_escapes harbour_env ship_args ship_push
                ["dest"] "shore:/d2" [] e Ht) as [Hinit Hcycle].
  split_and!; [exact Ht| |].
  - apply Hinit; [|reflexivity].
    intros [|i] t Hi; [|done]. injection Hi as <-. by eexists.
  - set (r := push_batch harbour_env ship_args ∅ ship_world).
    assert (E : r = (Done match fst r with Done s => s | _ => ∅ end, snd r))
      by (vm_compute; reflexivity).
    apply (Hcycle _ _ _ _ "/root" "." E);
      [by vm_compute|by vm_compute| |by vm_compute].
    intros [|i] t Hi; [|done]. injection Hi as <-. by eexists.
Defined.

(** * Paths: normal forms, [abspath], [relpath] *)

Lemma plain_component_spec (c : string) :
  plain_component c = true <->
  c <> "" /\ c <> "." /\ c <> ".." /\ has_sep c = false.
Proof.
  unfold plain_component.
  rewrite !andb_true_iff, !negb_true_iff, !String.eqb_neq. tauto.
Qed.

Lemma plain_good (comps : list string) :
  plain comps -> Forall good_component comps.
Proof.
  intros H. eapply Forall_impl; [exact H|].
  intros c (H1 & H2 & _ & H4)%plain_component_spec. by split_and!.
Qed.

Lemma plain_no_sep (comps : list string) :
  plain comps -> Forall (fun c => has_sep c = false) comps.
Proof.
  intros H. eapply Forall_impl; [exact H|].
  by intros c (_ & _ & _ & ?)%plain_component_spec.
Qed.

(** The loop of [normpath] leaves plain components as they are. *)
Lemma normpath_comps_plain (b : bool) (comps acc : list string) :
  plain comps ->
  posixpath.normpath_comps b comps acc = rev acc ++ comps.
Proof.
  revert acc. induction comps as [|c comps IH]; intros acc Hp;
    cbn [posixpath.normpath_comps].
  - by rewrite app_nil_r.
  - inversion_clear Hp as [|? ? Hc Hcs].
    apply plain_component_spec in Hc as (H1 & H2 & H3 & _).
    rewrite (proj2 (String.eqb_neq c "")), (proj2 (String.eqb_neq c ".")),
      (proj2 (String.eqb_neq c "..")) by done.
    cbn [orb negb]. rewrite IH by done. cbn [rev].
    by rewrite <- app_assoc.
Qed.

(** What the loop makes of any path is plain, when the path is
    absolute. *)
Lemma normpath_comps_is_plain (comps acc : list string) :
  Forall (fun c => has_sep c = false) comps -> plain acc ->
  plain (posixpath.normpath_comps true comps acc).
Proof.
  revert acc. induction comps as [|c comps IH]; intros acc Hs Hacc;
    cbn [posixpath.normpath_comps].
  - by apply Forall_rev.
  - inversion_clear Hs as [|? ? Hc Hcs].
    destruct (String.eqb_spec c "") as [->|H1]; cbn [orb]; [by apply IH|].
    destruct (String.eqb_spec c ".") as [->|H2]; cbn [orb]; [by apply IH|].
    destruct (String.eqb_spec c "..") as [->|H3]; cbn [orb negb andb].
    + destruct acc as [|a acc]; [by apply IH|].
      inversion_clear Hacc as [|? ? Ha Hacc'].
      apply plain_component_spec in Ha as Ha'. destruct Ha' as (_ & _ & Hdd & _).
      rewrite (proj2 (String.eqb_neq a "..")) by done. by apply IH.
    + apply IH; [done|]. constructor; [|done].
      apply plain_component_spec. by split_and!.
Qed.

Lemma join_sep_cons (c : string) (l : list string) :
  l <> [] -> join_sep (c :: l) = c +:+ String sep (join_sep l).
Proof. by destruct l. Qed.

Lemma string_app_nil_r (s : string) : s +:+ "" = s.
Proof.
  induction s as [|c s IH]; [done|]. by rewrite string_app_cons, IH.
Qed.

Lemma join_sep_head (c : string) (l : list string) :
  exists r, join_sep (c :: l) = c +:+ r.
Proof.
  destruct l as [|d l]; [exists ""|by eexists].
  by rewrite string_app_nil_r.
Qed.

(** The components of a rooted path, as [normpath] sees them. *)
Lemma normpath_comps_split (front : list string) (comps : list string) :
  plain comps ->
  Forall (fun c => c = "") front ->
  posixpath.normpath_comps true (front ++ split_sep (join_sep comps)) []
  = comps.
Proof.
  intros Hp. induction 1 as [|c front -> _ IH]; cbn [app].
  - destruct comps as [|c l]; [done|].
    rewrite split_join by (done || by apply plain_no_sep).
    by rewrite normpath_comps_plain.
  - done.
Qed.

Lemma initial_slashes_cases (p : string) :
  posixpath.isabs p = true ->
  posixpath.initial_slashes p = 1%nat \/ posixpath.initial_slashes p = 2%nat.
Proof.
  destruct p as [|a [|b [|c p]]]; cbn; try done; intros ->; cbn;
    [auto| |].
  - destruct (Ascii.eqb b sep); auto.
  - destruct (Ascii.eqb b sep && negb (Ascii.eqb c sep)); auto.
Qed.

Lemma plain_head (c : string) :
  plain_component c = true ->
  exists a r, c = String a r /\ Ascii.eqb a sep = false.
Proof.
  intros (H1 & _ & _ & H4)%plain_component_spec.
  destruct c as [|a r]; [done|]. exists a, r. split; [done|].
  cbn in H4. by apply orb_false_iff in H4 as [? _].
Qed.

Lemma initial_slashes_normal (n : nat) (comps : list string) :
  n = 1%nat \/ n = 2%nat -> plain comps ->
  posixpath.initial_slashes (slashes n +:+ join_sep comps) = n.
Proof.
  intros Hn Hp. destruct comps as [|c l].
  - by destruct Hn as [-> | ->].
  - inversion_clear Hp as [|? ? Hc _].
    destruct (plain_head c Hc) as (a & r & -> & Ha).
    destruct (join_sep_head (String a r) l) as [t ->].
    destruct Hn as [-> | ->].
    + change (slashes 1 +:+ String a r +:+ t)
        with (String sep (String a (r +:+ t))).
      cbn. rewrite Ha. by destruct (r +:+ t).
    + change (slashes 2 +:+ String a r +:+ t)
        with (String sep (String sep (String a (r +:+ t)))).
      cbn. by rewrite Ha.
Qed.

(** A path in normal form is a fixed point of [normpath]. *)
Lemma normpath_normal (n : nat) (comps : list string) :
  n = 1%nat \/ n = 2%nat -> plain comps ->
  posixpath.normpath (slashes n +:+ join_sep comps)
  = slashes n +:+ join_sep comps.
Proof.
  intros Hn Hp. unfold posixpath.normpath.
  rewrite initial_slashes_normal by done.
  assert (Hs : posixpath.normpath_comps true
                 (split_sep (slashes n +:+ join_sep comps)) [] = comps).
  { destruct Hn as [-> | ->].
    - change (split_sep (slashes 1 +:+ join_sep comps))
        with ([""] ++ split_sep (join_sep comps)).
      apply normpath_comps_split; [done|by repeat constructor].
    - change (split_sep (slashes 2 +:+ join_sep comps))
        with ([""; ""] ++ split_sep (join_sep comps)).
      apply normpath_comps_split; [done|by repeat constructor]. }
  destruct Hn as [-> | ->]; cbn [Nat.eqb negb]; rewrite Hs; done.
Qed.

(** [normpath] brings every absolute path into normal form. *)
Lemma normpath_absolute (p : string) :
  posixpath.isabs p = true ->
  exists n comps,
    (n = 1%nat \/ n = 2%nat) /\ plain comps
    /\ posixpath.normpath p = slashes n +:+ join_sep comps.
Proof.
  intros Habs. unfold posixpath.normpath.
  destruct p as [|a p]; [done|]. cbn [String.eqb].
  set (q := String a p) in *.
  destruct (initial_slashes_cases q Habs) as [Hn|Hn]; rewrite Hn;
    cbn [Nat.eqb negb].
  - exists 1%nat, (posixpath.normpath_comps true (split_sep q) []).
    split_and!; [auto|apply normpath_comps_is_plain|done].
    + apply split_sep_has_sep.
    + constructor.
  - exists 2%nat, (posixpath.normpath_comps true (split_sep q) []).
    split_and!; [auto|apply normpath_comps_is_plain|done].
    + apply split_sep_has_sep.
    + constructor.
Qed.

Lemma isabs_slashes (n : nat) (s : string) :
  n = 1%nat \/ n = 2%nat -> posixpath.isabs (slashes n +:+ s) = true.
Proof. by intros [-> | ->]. Qed.

Lemma isabs_join (cwd p : string) :
  posixpath.isabs cwd = true ->
  posixpath.isabs (if posixpath.isabs p then p else posixpath.join cwd p) = true.
Proof.
  intros Hc. destruct (posixpath.isabs p) eqn:Hp; [done|].
  unfold posixpath.join. unfold posixpath.isabs in Hp. rewrite Hp.
  destruct cwd as [|a cwd]; [done|]. cbn [String.eqb orb].
  by destruct (endswith_sep (String a cwd)).
Qed.

Lemma abspath_absolute_fixed (cwd cwd' p : string) :
  posixpath.isabs cwd = true ->
  posixpath.isabs (posixpath.abspath cwd p) = true
  /\ posixpath.abspath cwd' (posixpath.abspath cwd p) = posixpath.abspath cwd p.
Proof.
  intros Hc. unfold posixpath.abspath at 1 3 4.
  destruct (normpath_absolute _ (isabs_join cwd p Hc))
    as (n & comps & Hn & Hp & E).
  rewrite E. split.
  - by apply isabs_slashes.
  - unfold posixpath.abspath. rewrite isabs_slashes by done.
    by apply normpath_normal.
Qed.

(** X13. Every directory the programs work with goes through
    [os.path.abspath]. With an absolute working directory, the result is
    an absolute path in normal form: one or two slashes followed by
    components, joined by single slashes, none of which is empty, ["."]
    or [".."]; and [abspath] applied once more, in whatever working
    directory, gives the same path again. *)
Theorem abspath_normal_form (cwd cwd' p : string) :
  posixpath.isabs cwd = true ->
  posixpath.isabs (posixpath.abspath cwd p) = true
  /\ posixpath.abspath cwd' (posixpath.abspath cwd p) = posixpath.abspath cwd p
  /\ exists comps,
      plain comps
      /\ (posixpath.abspath cwd p = "/" +:+ join_sep comps
          \/ posixpath.abspath cwd p = "//" +:+ join_sep comps).
Proof.
  intros Hc. unfold posixpath.abspath at 1 3 4 5 6.
  destruct (normpath_absolute _ (isabs_join cwd p Hc)) as (n & comps & Hn & Hp & E).
  rewrite E. split_and!.
  - by apply isabs_slashes.
  - unfold posixpath.abspath. rewrite isabs_slashes by done.
    by apply normpath_normal.
  - exists comps. split; [done|]. destruct Hn as [-> | ->]; auto.
Qed.

Lemma abspath_normal_form_witness :
  posixpath.isabs "/home/pat" = true
  /\ posixpath.isabs (posixpath.abspath "/home/pat" "../data/./logs//") = true
  /\ posixpath.abspath "/tmp"
       (posixpath.abspath "/home/pat" "../data/./logs//")
     = posixpath.abspath "/home/pat" "../data/./logs//"
  /\ exists comps,
      plain comps
      /\ (posixpath.abspath "/home/pat" "../data/./logs//"
          = "/" +:+ join_sep comps
          \/ posixpath.abspath "/home/pat" "../data/./logs//"
             = "//" +:+ join_sep comps).
Proof.
  assert (H : posixpath.isabs "/home/pat" = true) by reflexivity.
  split; [exact H|].
  exact (abspath_normal_form "/home/pat" "/tmp" "../data/./logs//" H).
Defined.

(** X14. The command line is changed in one place only: [args.cache] is
    made absolute once at start-up. [rsyncFrom] makes it absolute a
    second time; with an absolute working directory and an [expanduser]
    that leaves absolute paths alone this changes nothing, so the pull
    side runs the transfer tool with the very [--temp-dir] of the push
    side: for the same source and target the two executors are the same
    program. *)
Theorem push_and_pull_share_temp_dir (env : Env) (parsed : Args)
        (src tgt : string) :
  posixpath.isabs (getcwd env) = true ->
  (forall p, posixpath.isabs p = true -> expanduser env p = p) ->
  let args := main_args env parsed in
  posixpath.isabs (cache args) = true
  /\ abspath env (expanduser env (cache args)) = cache args
  /\ rsyncFrom env args src tgt = rsyncTo env args src tgt.
Proof.
  intros Hcwd Hexp args.
  destruct (abspath_absolute_fixed (getcwd env) (getcwd env)
              (expanduser env (cache parsed)) Hcwd) as [Habs Hfix].
  assert (E : abspath env (expanduser env (cache args)) = cache args).
  { unfold args, main_args. cbn [cache]. unfold abspath in *.
    by rewrite (Hexp _ Habs). }
  split_and!; [done|done|].
  unfold rsyncFrom, rsyncTo. by rewrite E.
Qed.

Lemma push_and_pull_share_temp_dir_witness :
  posixpath.isabs (getcwd ship_env) = true
  /\ (forall p, posixpath.isabs p = true -> expanduser ship_env p = p)
  /\ let args := main_args ship_env ship_args in
     posixpath.isabs (cache args) = true
     /\ abspath ship_env (expanduser ship_env (cache args)) = cache args
     /\ rsyncFrom ship_env args "shore:/data" "/root"
        = rsyncTo ship_env args "shore:/data" "/root".
Proof.
  assert (H1 : posixpath.isabs (getcwd ship_env) = true) by reflexivity.
  assert (H2 : forall p, posixpath.isabs p = true -> expanduser ship_env p = p)
    by reflexivity.
  split_and!; [exact H1|exact H2|].
  exact (push_and_pull_share_temp_dir ship_env ship_args "shore:/data" "/root"
           H1 H2).
Defined.

(** ** Below the tree root *)

Lemma string_app_assoc (a b c : string) : (a +:+ b) +:+ c = a +:+ (b +:+ c).
Proof.
  induction a as [|x a IH]; [done|]. by rewrite !string_app_cons, IH.
Qed.

Lemma join_sep_plain_head (l : list string) :
  plain l -> l <> [] ->
  exists a r, join_sep l = String a r /\ Ascii.eqb a sep = false.
Proof.
  intros Hp Hne. destruct l as [|c l]; [done|].
  inversion_clear Hp as [|? ? Hc _].
  destruct (plain_head c Hc) as (a & r & -> & Ha).
  destruct (join_sep_head (String a r) l) as [t ->].
  rewrite string_app_cons. eauto.
Qed.

Lemma join_sep_app (l1 l2 : list string) :
  l1 <> [] -> l2 <> [] ->
  join_sep (l1 ++ l2) = join_sep l1 +:+ String sep (join_sep l2).
Proof.
  intros H1 H2. induction l1 as [|c l1 IH]; [done|].
  destruct l1 as [|d l1].
  - cbn [app]. by rewrite join_sep_cons.
  - change ((c :: d :: l1) ++ l2) with (c :: (d :: l1) ++ l2).
    rewrite !join_sep_cons, IH by done. by rewrite string_app_assoc.
Qed.

(** The components [relpath] works with, for a rooted path. *)
Lemma relpath_list_rooted (cwd : string) (l : list string) :
  plain l ->
  (let tail := lstrip_sep (posixpath.abspath cwd (rooted l)) in
   if String.eqb tail "" then [] else split_sep tail) = l.
Proof.
  intros Hp. unfold posixpath.abspath.
  change (posixpath.isabs (rooted l)) with true. cbv iota.
  change (rooted l) with (slashes 1 +:+ join_sep l).
  rewrite normpath_normal by auto.
  change (slashes 1 +:+ join_sep l) with (String sep (join_sep l)).
  cbn [lstrip_sep]. rewrite Ascii.eqb_refl.
  destruct l as [|c l]; [done|].
  destruct (join_sep_plain_head (c :: l) Hp) as (a & r & E & Ha); [done|].
  cbv zeta. rewrite E. cbn [lstrip_sep]. rewrite Ha. cbn [String.eqb].
  rewrite <- E. apply split_join; [done|by apply plain_no_sep].
Qed.

Lemma commonprefix_len_app (l k : list string) :
  posixpath.commonprefix_len l (l ++ k) = length l.
Proof.
  induction l as [|c l IH]; [done|]. cbn. by rewrite String.eqb_refl, IH.
Qed.

Lemma relpath_rooted (cwd : string) (rc rest : list string) :
  plain rc -> plain rest ->
  posixpath.relpath cwd (rooted (rc ++ rest)) (rooted rc)
  = inr match rest with [] => "." | _ => join_sep rest end.
Proof.
  intros Hrc Hrest. unfold posixpath.relpath.
  change (String.eqb (rooted (rc ++ rest)) "") with false. cbv iota.
  pose proof (relpath_list_rooted cwd rc Hrc) as E1.
  pose proof (relpath_list_rooted cwd (rc ++ rest)) as E2.
  cbv zeta in *. rewrite E1, E2 by (by apply Forall_app).
  rewrite commonprefix_len_app, Nat.sub_diag, drop_app_length.
  by destruct rest.
Qed.

Lemma string_app_nonempty (s t : string) : t <> "" -> s +:+ t <> "".
Proof. destruct s; [done|]. by rewrite string_app_cons. Qed.

Lemma endswith_sep_app (s t : string) :
  t <> "" -> endswith_sep (s +:+ t) = endswith_sep t.
Proof.
  intros Ht. induction s as [|c s IH]; [done|].
  rewrite string_app_cons. cbn [endswith_sep].
  pose proof (string_app_nonempty s t Ht).
  by destruct (s +:+ t).
Qed.

Lemma endswith_sep_no_sep (c : string) :
  has_sep c = false -> endswith_sep c = false.
Proof.
  induction c as [|a c IH]; [done|]. cbn.
  intros [Ha Hc]%orb_false_iff. destruct c; [done|]. by apply IH.
Qed.

Lemma endswith_sep_join (l : list string) :
  plain l -> l <> [] -> endswith_sep (join_sep l) = false.
Proof.
  intros Hp Hne. induction l as [|c l IH]; [done|].
  inversion_clear Hp as [|? ? Hc Hl].
  apply plain_component_spec in Hc as (_ & _ & _ & Hs).
  destruct l as [|d l]; [by apply endswith_sep_no_sep|].
  rewrite join_sep_cons, endswith_sep_app by done.
  cbn [endswith_sep].
  destruct (join_sep_plain_head (d :: l) Hl) as (a & r & E & _); [done|].
  rewrite E. rewrite <- E. by apply IH.
Qed.

Lemma join_rooted (rc rest : list string) :
  plain rc -> plain rest -> rest <> [] ->
  posixpath.join (rooted rc) (join_sep rest) = rooted (rc ++ rest).
Proof.
  intros Hrc Hrest Hne. unfold posixpath.join.
  destruct (join_sep_plain_head rest Hrest Hne) as (a & r & E & Ha).
  rewrite E. cbn [startswith_sep]. rewrite Ha. rewrite <- E.
  change (String.eqb (rooted rc) "") with false. cbn [orb].
  destruct rc as [|c rc]; [done|].
  unfold rooted at 1. rewrite endswith_sep_app.
  2:{ destruct (join_sep_plain_head (c :: rc) Hrc) as (? & ? & -> & _); done. }
  rewrite endswith_sep_join by done.
  unfold rooted. rewrite join_sep_app by done.
  by rewrite !string_app_assoc.
Qed.

Lemma join_sep_not_dot (l : list string) :
  plain l -> l <> [] -> join_sep l <> ".".
Proof.
  intros Hp Hne. destruct l as [|c l]; [done|].
  inversion_clear Hp as [|? ? Hc _].
  apply plain_component_spec in Hc as (H1 & H2 & _).
  destruct l as [|d l]; [done|]. rewrite join_sep_cons by done.
  destruct c as [|x [|y c]]; [done| |done].
  rewrite string_app_cons. by intros [= ->].
Qed.

(** X15. For a path below the tree root, [relpath] gives the components
    the path has beyond the root, and ["."] for the root itself; joined
    to the root they give the path back. So the transfer for a batch
    whose common path is [root/rest] goes, for every target, to
    [join(target, rest)], and to the target itself for the root. *)
Theorem relpath_below_root (cwd : string) (rc rest : list string) :
  plain rc -> plain rest ->
  let rel := match rest with [] => "." | _ => join_sep rest end in
  posixpath.relpath cwd (rooted (rc ++ rest)) (rooted rc) = inr rel
  /\ (rest <> [] -> posixpath.join (rooted rc) rel = rooted (rc ++ rest))
  /\ forall tgt,
      push_dest rel tgt
      = match rest with
        | [] => tgt
        | _ => posixpath.join tgt (join_sep rest)
        end.
Proof.
  intros Hrc Hrest rel. split_and!.
  - by apply relpath_rooted.
  - intros Hne. unfold rel. destruct rest; [done|]. by apply join_rooted.
  - intros tgt. unfold push_dest, rel. destruct rest as [|c l]; [done|].
    by rewrite (proj2 (String.eqb_neq _ ".")) by (by apply join_sep_not_dot).
Qed.

Lemma relpath_below_root_witness :
  plain ["home"; "pat"] /\ plain ["data"; "logs"]
  /\ let rel := "data/logs" in
     posixpath.relpath "/tmp" (rooted (["home"; "pat"] ++ ["data"; "logs"]))
                       (rooted ["home"; "pat"]) = inr rel
     /\ (["data"; "logs"] <> [] ->
         posixpath.join (rooted ["home"; "pat"]) rel
         = rooted (["home"; "pat"] ++ ["data"; "logs"]))
     /\ forall tgt, push_dest rel tgt = posixpath.join tgt "data/logs".
Proof.
  assert (H1 : plain ["home"; "pat"]) by (by repeat constructor).
  assert (H2 : plain ["data"; "logs"]) by (by repeat constructor).
  split_and!; [exact H1|exact H2|].
  exact (relpath_below_root "/tmp" ["home"; "pat"] ["data"; "logs"] H1 H2).
Defined.

(** ** The common path of a set that holds the tree root *)

Lemma commonpath_with_root (rc : list string) (D : gset string) :
  plain rc -> rooted rc ∈ D ->
  (forall m, m ∈ D ->
             posixpath.isabs m = true
             /\ rc `prefix_of` posixpath.components m) ->
  posixpath.commonpath (elements D) = inr (rooted rc).
Proof.
  intros Hrc Hin Hall.
  destruct (elements D) as [|p0 rest] eqn:He.
  { apply elements_empty_inv in He. apply leibniz_equiv in He.
    rewrite He in Hin. set_solver. }
  assert (Hmem : forall m, m ∈ D <-> m ∈ p0 :: rest).
  { intros m. by rewrite <- He, elem_of_elements. }
  destruct (commonpath_spec p0 rest) as (common & Hc & _ & Hpre & Hmax).
  { apply Forall_forall. intros p Hp.
    rewrite (proj1 (Hall p0 (proj2 (Hmem p0) ltac:(by left)))).
    apply Hall, Hmem. by right. }
  rewrite (proj1 (Hall p0 (proj2 (Hmem p0) ltac:(by left)))) in Hc.
  rewrite Hc. f_equal. unfold rooted. f_equal. f_equal.
  assert (H1 : common `prefix_of` rc).
  { rewrite <- (components_join true rc (plain_good rc Hrc)).
    apply Hpre, Hmem, Hin. }
  assert (H2 : rc `prefix_of` common).
  { apply Hmax. intros m Hm. by apply Hall, Hmem. }
  apply prefix_length_eq; [done|]. by apply prefix_length.
Qed.

(** X16. While the tree root is in the DirtySet, as it is after an
    initial sync that failed for some target, and the other members lie
    below the root, the common path of the set is the root and its
    relative path is ["."]: a fan-out that comes to its end has run the
    very commands of the initial sync again, the whole tree to every
    target. *)
Theorem dirty_root_forces_full_sync (env : Env) (args : Args) (self : PushTo)
        (rc : list string) (D s' : gset string) (w w' : World) :
  plain rc ->
  push_dirRoot self = rooted rc ->
  push_dirRoot self ∈ D ->
  (forall m, m ∈ D ->
             posixpath.isabs m = true
             /\ rc `prefix_of` posixpath.components m) ->
  push_fanout env args self D w = (Done s', w') ->
  posixpath.commonpath (elements D) = inr (push_dirRoot self)
  /\ runs (trace w')
     = runs (trace w)
         ++ push_cmds args (push_dirRoot self) (fun tgt => tgt)
                      (push_targets self).
Proof.
  intros Hrc Hroot Hin Hall Hf. rewrite Hroot in Hin.
  pose proof (commonpath_with_root rc D Hrc Hin Hall) as Hc.
  apply push_fanout_done in Hf as (src & rel & Hc' & Hr & Hruns & _).
  rewrite Hc in Hc'. injection Hc' as <-.
  rewrite Hroot in Hr |- *.
  pose proof (relpath_rooted (getcwd env) rc [] Hrc ltac:(constructor)) as Hr'.
  rewrite app_nil_r in Hr'. rewrite Hr' in Hr. injection Hr as <-.
  split; [done|]. by rewrite Hruns.
Qed.

Lemma dirty_root_forces_full_sync_witness :
  let D : gset string := {["/root"]} ∪ {["/root/sub"]} in
  let r := push_fanout ship_env ship_args ship_push D ship_world in
  plain ["root"]
  /\ push_dirRoot ship_push = rooted ["root"]
  /\ push_dirRoot ship_push ∈ D
  /\ (forall m, m ∈ D ->
                posixpath.isabs m = true
                /\ ["root"] `prefix_of` posixpath.components m)
  /\ exists s' w',
      r = (Done s', w')
      /\ posixpath.commonpath (elements D) = inr (push_dirRoot ship_push)
      /\ runs (trace w')
         = runs (trace ship_world)
             ++ push_cmds ship_args (push_dirRoot ship_push) (fun tgt => tgt)
                          (push_targets ship_push).
Proof.
  intros D r.
  assert (H1 : plain ["root"]) by (by repeat constructor).
  assert (H2 : push_dirRoot ship_push = rooted ["root"]) by reflexivity.
  assert (H3 : push_dirRoot ship_push ∈ D) by (unfold D; set_solver).
  assert (H4 : forall m, m ∈ D ->
                 posixpath.isabs m = true
                 /\ ["root"] `prefix_of` posixpath.components m).
  { intros m Hm. unfold D in Hm.
    apply elem_of_union in Hm as [Hm|Hm]; apply elem_of_singleton in Hm;
      subst m; (split; [reflexivity|]).
    - by exists [].
    - by exists ["sub"]. }
  assert (E : r = (Done match fst r with Done s => s | _ => ∅ end, snd r))
    by (vm_compute; reflexivity).
  split_and!; [exact H1|exact H2|exact H3|exact H4|].
  eexists _, _. split; [exact E|].
  exact (dirty_root_forces_full_sync ship_env ship_args ship_push ["root"] D
           _ ship_world _ H1 H2 H3 H4 E).
Defined.

(** ** From a changed file to its transfer *)

Lemma upto_last_sep_no_sep (f : string) :
  has_sep f = false -> upto_last_sep f = "".
Proof.
  induction f as [|a f IH]; [done|]. cbn.
  intros [Ha Hf]%orb_false_iff. by rewrite IH, Ha.
Qed.

Lemma upto_last_sep_app (s f : string) :
  has_sep f = false ->
  upto_last_sep (s +:+ String sep f) = s +:+ String sep "".
Proof.
  intros Hf. induction s as [|c s IH].
  - change ("" +:+ String sep f) with (String sep f). cbn.
    by rewrite upto_last_sep_no_sep.
  - rewrite !string_app_cons. cbn [upto_last_sep]. rewrite IH.
    pose proof (string_app_nonempty s (String sep "") ltac:(done)).
    by destruct (s +:+ String sep "").
Qed.

Lemma rstrip_sep_app_sep (s : string) :
  rstrip_sep (s +:+ String sep "") = rstrip_sep s.
Proof.
  induction s as [|c s IH]; [done|].
  rewrite string_app_cons. cbn [rstrip_sep]. by rewrite IH.
Qed.

Lemma rstrip_sep_id (s : string) : endswith_sep s = false -> rstrip_sep s = s.
Proof.
  induction s as [|c s IH]; [done|]. cbn [endswith_sep rstrip_sep].
  destruct s as [|d s]; [by intros ->|].
  intros H. rewrite (IH H). done.
Qed.

Lemma dirname_rooted (l : list string) (f : string) :
  plain l -> plain_component f = true ->
  posixpath.dirname (rooted (l ++ [f])) = rooted l.
Proof.
  intros Hl Hf. pose proof Hf as (Hne & _ & _ & Hs)%plain_component_spec.
  unfold posixpath.dirname. destruct l as [|c l].
  - change (rooted ([] ++ [f])) with ("" +:+ String sep f).
    by rewrite upto_last_sep_app.
  - unfold rooted. rewrite join_sep_app by done.
    change (join_sep [f]) with f. rewrite <- string_app_assoc.
    rewrite upto_last_sep_app by done.
    destruct (join_sep_plain_head (c :: l) Hl) as (a & r & E & Ha); [done|].
    assert (Hall : all_sep (("/" +:+ join_sep (c :: l)) +:+ String sep "")
                   = false).
    { rewrite E. change ("/" +:+ String a r) with (String sep (String a r)).
      rewrite !string_app_cons. cbn. by rewrite Ha. }
    rewrite Hall.
    rewrite (proj2 (String.eqb_neq _ ""))
      by (apply string_app_nonempty; done).
    cbn [negb andb]. rewrite rstrip_sep_app_sep. apply rstrip_sep_id.
    rewrite endswith_sep_app by (rewrite E; done).
    by apply endswith_sep_join.
Qed.

(** X17. One changed file, one directory synced. When a cycle that
    starts with an empty DirtySet gets a single event, for a file [f] in
    the directory [root/rest], the push coordinator runs the transfer
    tool once per target, from that directory, [root/rest], to
    [join(target, rest)], and to the target itself when the file lies in
    the root. *)
Theorem file_change_syncs_its_directory (env : Env) (args : Args)
        (self : PushTo) (rc rest : list string) (f : string) (t0 : Q)
        (s' : gset string) (w w' : World) :
  plain rc -> plain rest -> plain_component f = true ->
  push_dirRoot self = rooted rc ->
  isdir env (rooted (rc ++ rest ++ [f])) = false ->
  inotify w = [(t0, rooted (rc ++ rest ++ [f]))] ->
  push_cycle env args self ∅ w = (Done s', w') ->
  runs (trace w')
  = runs (trace w)
      ++ map (fun tgt =>
                rsync_cmd args (cache args) (rooted (rc ++ rest))
                  match rest with
                  | [] => tgt
                  | _ => posixpath.join tgt (join_sep rest)
                  end)
             (push_targets self).
Proof.
  intros Hrc Hrest Hf Hroot Hdir Hq Hc.
  unfold push_cycle in Hc.
  apply bind_inv_done in Hc as (D & w1 & Hb & Hfan).
  destruct (push_batch_done _ _ _ _ _ _ Hb) as (_ & _ & _ & es & Htr & Hes).
  pose proof (push_batch_contract env args ∅ w) as C.
  unfold debounce_contract in C. rewrite Hq in C.
  destruct C as (dt & tk & left & D' & msg & largs & E & _ & _ & _ & Hnil
                 & _ & _ & HD).
  rewrite E in Hb. injection Hb as -> _.
  symmetry in Hnil. apply app_eq_nil in Hnil as [-> _].
  assert (Hplain : plain (rc ++ rest)) by (by apply Forall_app).
  assert (HD' : D = {[rooted (rc ++ rest)]}).
  { rewrite HD. unfold dir_of. rewrite Hdir.
    rewrite (app_assoc rc rest [f]), dirname_rooted by done.
    cbn. set_solver. }
  apply push_fanout_done in Hfan as (src & rel & Hcp & Hr & Hruns & _).
  rewrite HD', elements_singleton in Hcp.
  assert (Hcp' : posixpath.commonpath [rooted (rc ++ rest)]
                 = inr (rooted (rc ++ rest))).
  { rewrite <- (elements_singleton (C := gset string) (rooted (rc ++ rest))).
    apply commonpath_with_root; [done|set_solver|].
    intros m ->%elem_of_singleton. split; [done|].
    pose proof (components_join true _ (plain_good _ Hplain)) as Hcj.
    change (posixpath.components (rooted (rc ++ rest)) = rc ++ rest) in Hcj.
    by rewrite Hcj. }
  rewrite Hcp' in Hcp. injection Hcp as <-.
  rewrite Hroot, (relpath_rooted _ rc rest Hrc Hrest) in Hr.
  injection Hr as <-.
  rewrite Hruns, Htr, runs_app, Hes, app_nil_r. f_equal.
  unfold push_cmds. apply map_ext. intros tgt. f_equal.
  unfold push_dest. destruct rest as [|c l]; [done|].
  by rewrite (proj2 (String.eqb_neq _ ".")) by (by apply join_sep_not_dot).
Qed.

Lemma file_change_syncs_its_directory_witness :
  let w := mkWorld 0 [(5, "/root/sub/a.txt")] 0 [] in
  let r := push_cycle ship_env ship_args ship_push ∅ w in
  plain ["root"] /\ plain ["sub"] /\ plain_component "a.txt" = true
  /\ push_dirRoot ship_push = rooted ["root"]
  /\ isdir ship_env (rooted (["root"] ++ ["sub"] ++ ["a.txt"])) = false
  /\ inotify w = [(5, rooted (["root"] ++ ["sub"] ++ ["a.txt"]))]
  /\ exists s' w',
      r = (Done s', w')
      /\ runs (trace w')
         = runs (trace w)
             ++ map (fun tgt =>
                       rsync_cmd ship_args (cache ship_args)
                         (rooted (["root"] ++ ["sub"]))
                         (posixpath.join tgt (join_sep ["sub"])))
                    (push_targets ship_push).
Proof.
  intros w r.
  assert (H1 : plain ["root"]) by (by repeat constructor).
  assert (H2 : plain ["sub"]) by (by repeat constructor).
  assert (H3 : plain_component "a.txt" = true) by reflexivity.
  assert (H4 : push_dirRoot ship_push = rooted ["root"]) by reflexivity.
  assert (H5 : isdir ship_env (rooted (["root"] ++ ["sub"] ++ ["a.txt"]))
               = false) by reflexivity.
  assert (H6 : inotify w = [(5, rooted (["root"] ++ ["sub"] ++ ["a.txt"]))])
    by reflexivity.
  assert (E : r = (Done match fst r with Done s => s | _ => ∅ end, snd r))
    by (vm_compute; reflexivity).
  split_and!; [exact H1|exact H2|exact H3|exact H4|exact H5|exact H6|].
  eexists _, _. split; [exact E|].
  exact (file_change_syncs_its_directory ship_env ship_args ship_push
           ["root"] ["sub"] "a.txt" 5 _ w _ H1 H2 H3 H4 H5 H6 E).
Defined.

(** * The remote watcher as a whole *)


Section WatcherRuns.

Variable env : Env.




End WatcherRuns.


(** A watcher that does meet a fault: one event with a relative path in
    a batch with an absolute one makes [commonpath] raise; the fault is
    logged and the program ends without a line printed. *)
Example watcher_logs_mixed_paths :
  let w := mkWorld 0 [(5, "/root/a.txt"); (6, "b/c.txt")] 0 [] in
  fst (watch_loop ship_env 20 1 w)
  = Raised (ValueError "Can't mix absolute and relative paths")
  /\ fst (monitorRemote_main ship_env 20 1 w) = Done tt
  /\ last (trace (snd (monitorRemote_main ship_env 20 1 w)))
     = Some (ELog ERROR "Unexpected exception" [])
  /\ printed (trace (snd (monitorRemote_main ship_env 20 1 w))) = [].
Proof. vm_compute. split_and!; reflexivity. Qed.

(** * The executor's command line *)

(** X19. The transfer tool is always given its source with a trailing
    slash, so that it copies what is in the directory and not the
    directory itself: for a source that is not empty, the seventh word
    of the command ends with a slash, and is the source itself when that
    already ends with one and the source followed by a slash otherwise.
    The command has eight words, the target last. *)
Theorem executor_source_trailing_slash (args : Args) (temp src tgt : string) :
  src <> "" ->
  length (rsync_cmd args temp src tgt) = 8%nat
  /\ rsync_cmd args temp src tgt !! 7%nat = Some tgt
  /\ exists s,
      rsync_cmd args temp src tgt !! 6%nat = Some s
      /\ endswith_sep s = true
      /\ s = (if endswith_sep src then src else src +:+ "/").
Proof.
  intros Hne. split_and!; [done|done|].
  eexists. split; [done|]. unfold posixpath.join. cbn [startswith_sep].
  rewrite (proj2 (String.eqb_neq src "")) by done. cbn [orb].
  destruct (endswith_sep src) eqn:He.
  - rewrite string_app_nil_r. by split.
  - split; [|done]. change (src +:+ "/" +:+ "") with (src +:+ "/").
    by rewrite endswith_sep_app.
Qed.

Lemma executor_source_trailing_slash_witness :
  "/root/sub" <> ""
  /\ length (rsync_cmd ship_args "/var/cache" "/root/sub" "dest/sub") = 8%nat
  /\ rsync_cmd ship_args "/var/cache" "/root/sub" "dest/sub" !! 7%nat
     = Some "dest/sub"
  /\ exists s,
      rsync_cmd ship_args "/var/cache" "/root/sub" "dest/sub" !! 6%nat = Some s
      /\ endswith_sep s = true
      /\ s = "/root/sub/".
Proof.
  assert (H : "/root/sub" <> "") by discriminate.
  split; [exact H|].
  exact (executor_source_trailing_slash ship_args "/var/cache" "/root/sub"
           "dest/sub" H).
Defined.

(** * What a session of the bridge forwards *)

(** X20. In a session the bridge forwards the lines that match, and only
    those, in the order they come: the values put on the queue are the
    captures of the matching lines, each as text when it decodes and as
    bytes otherwise; the lines that do not match are logged and leave no
    other trace. Reading a session neither starts a sub-process nor lets
    time pass, and it always comes to the end of the session. *)
Theorem bridge_forwards_matching_lines (lines : list string) (w : World) :
  Forall (fun line => line <> "") lines ->
  exists es,
    read_lines lines w
    = (Done tt, mkWorld (clock w) (inotify w) (spawned w) (trace w ++ es))
    /\ puts es
       = omap (fun line => delivered <$> re.match_group1 line_pattern line)
              lines
    /\ length es
       = (length lines
          + length (omap (re.match_group1 line_pattern) lines))%nat.
Proof.
  intros H. revert w. induction H as [|line rest Hne _ IH]; intros w;
    cbn [read_lines].
  - exists []. by rewrite app_nil_r; destruct w.
  - rewrite (proj2 (String.eqb_neq line "")) by done. cbn [omap list_omap].
    destruct (re.match_group1 line_pattern line) as [g|].
    + unfold bind, logging, emit.
      match goal with |- context [read_lines rest ?w1] =>
        destruct (IH w1) as (es & -> & Hp & Hl) end.
      cbn [clock inotify spawned trace]. eexists. split.
      * by rewrite <- !app_assoc.
      * rewrite !puts_app, !length_app, Hp, Hl. cbn. split; [|lia].
        unfold delivered, str_decode. by destruct (utf8_valid g).
    + unfold bind, logging, emit.
      match goal with |- context [read_lines rest ?w1] =>
        destruct (IH w1) as (es & -> & Hp & Hl) end.
      cbn [clock inotify spawned trace]. eexists. split.
      * by rewrite <- !app_assoc.
      * rewrite !puts_app, !length_app, Hp, Hl. cbn. split; [done|lia].
Qed.

Lemma bridge_forwards_matching_lines_witness :
  let lines := [":/data/a" +:+ nl; "src:/data/b" +:+ nl; ":/data/c" +:+ nl] in
  Forall (fun line => line <> "") lines
  /\ exists es,
      read_lines lines ship_world
      = (Done tt,
         mkWorld (clock ship_world) (inotify ship_world) (spawned ship_world)
                 (trace ship_world ++ es))
      /\ puts es = [VStr "/data/a"; VStr "/data/c"]
      /\ length es = 5%nat.
Proof.
  intros lines.
  assert (H : Forall (fun line => line <> "") lines)
    by (repeat constructor; discriminate).
  split; [exact H|].
  exact (bridge_forwards_matching_lines lines ship_world H).
Defined.
